(** * The 8-bit RSA demonstration scripts, embedded in Rocq

    The repository consists of three Python scripts:
    - [generate-8bit-RSA-keyPair.py] derives the key material from the
      module constants [p], [q], [e], [d];
    - [Shor-classicalEdition-8bit.py] encrypts and decrypts with that
      key, and then recovers [d] from [(N, e)] by trial division;
    - [extract-8bit-RSA-publicKeyMaterial.py] runs the same trial
      division on the modulus read from a PEM file.

    Python integers are unbounded, so they are modelled by [Z]; [%] and
    [//] are floored, as [Z.modulo] and [Z.div] are.  The module level
    constants of the scripts become parameters of the definitions below,
    which keep the names of the variables they compute.  An exception
    that a script does not catch ends it: it is the [Raise] of the
    [result] type. *)

From Stdlib Require Import ZArith Lia List Bool ZifyBool Factorial.
From Stdlib Require Import Strings.Byte.
From Stdlib Require Import Zdivisibility Zcong.
From Stdlib Require Import Zmod.ZmodInv.
Import ListNotations.

#[local] Open Scope Z_scope.

(** ** Python values the scripts rely on *)

Module Py.

(** The exceptions that the built-in operations used by the scripts
    can raise. *)
Inductive exn : Type :=
| ValueError
| ZeroDivisionError
| OverflowError
| TypeError.

Inductive result (A : Type) : Type :=
| Ok (a : A)
| Raise (x : exn).

Arguments Ok {A} a.
Arguments Raise {A} x.

Definition bind {A B : Type} (r : result A) (k : A -> result B) : result B :=
  match r with
  | Ok a => k a
  | Raise x => Raise x
  end.

(** [a % b] *)
Definition mod_ (a b : Z) : result Z :=
  if b =? 0 then Raise ZeroDivisionError else Ok (a mod b).

(** The loop of CPython's [long_invmod a n], which [pow] runs for a
    negative exponent: the extended Euclidean algorithm on [(a, n)]
    with the cofactors [(b, c)] of the original [a].  It returns the
    last non-zero remainder together with its cofactor.  Each turn
    replaces [n] by [a mod n], so [fuel] counts the turns. *)
Fixpoint invmod_loop (fuel : nat) (a n b c : Z) : Z * Z :=
  match fuel with
  | O => (a, b)
  | S fuel' =>
      if n =? 0 then (a, b)
      else invmod_loop fuel' n (a mod n) c (b - (a / n) * c)
  end.

(** [long_invmod a n], called with [n > 0]: the cofactor when the
    greatest common divisor is one, [ValueError] ("base is not
    invertible for the given modulus") otherwise. *)
Definition long_invmod (a n : Z) : result Z :=
  let '(g, b) := invmod_loop (S (Z.to_nat n)) a n 1 0 in
  if g =? 1 then Ok b else Raise ValueError.

(** The built-in [pow(a, b, c)] on integers, in the order of CPython's
    [long_pow]: a zero modulus is a [ValueError]; modulus one (or minus
    one) gives zero; a negative exponent replaces the base by its
    inverse; the result has the sign of the modulus. *)
Definition pow (a b c : Z) : result Z :=
  if c =? 0 then Raise ValueError
  else if Z.abs c =? 1 then Ok 0
  else if b <? 0 then
    bind (long_invmod a (Z.abs c)) (fun a' => Ok (a' ^ (- b) mod c))
  else Ok (a ^ b mod c).

(** ** Double precision

    [N ** 0.5] converts the integer to a double and takes a floating
    power; [int] then truncates.  Doubles that hold a non-negative
    integer value are written here as that integer. *)

(** [float(n)] for [n >= 0]: [n] itself below [2^53]; above, [n] is
    rounded to 53 significant bits, to the nearest and to the even one
    on a tie.  A result of [2^1024] or more is no double: the
    conversion raises [OverflowError] (see [int_sqrt]). *)
Definition to_double (n : Z) : Z :=
  if n <? 2 ^ 53 then n
  else
    let k := Z.log2 n - 52 in
    let q := n / 2 ^ k in
    let r := n mod 2 ^ k in
    let half := 2 ^ (k - 1) in
    let q' := if r <? half then q
              else if half <? r then q + 1
              else if Z.even q then q else q + 1 in
    q' * 2 ^ k.

(** [int(x ** 0.5)] for a double [x >= 0] with an integer value: the
    square root rounded to 53 significant bits (to nearest, ties to
    even), then truncated.  With [E = log2 x / 2] the root lies in
    [[2^E, 2^(E+1))], so its 53-bit significand [sig] is the root of
    [x] scaled by [4^(52-E)], rounded; a tie cannot occur.  The
    platform's [pow] is taken to return that correctly rounded root; a
    C library may be off by one unit in the last place on large
    arguments, and what is proved below uses the value only where it is
    exact (below [2^52]) or through a coarse bound. *)
Definition double_sqrt_floor (x : Z) : Z :=
  if x =? 0 then 0
  else
    let E := Z.log2 x / 2 in
    if E <=? 52 then
      let t := 52 - E in
      let y := x * 4 ^ t in
      let s := Z.sqrt y in
      let sig := if y - s * s <=? s then s else s + 1 in
      sig / 2 ^ t
    else
      let u := E - 52 in
      let s := Z.sqrt (x / 4 ^ u) in
      let sig :=
        if 4 ^ u * ((2 * s + 1) * (2 * s + 1)) <? 4 * x then s + 1 else s in
      sig * 2 ^ u.

(** [int(n ** 0.5)].  The integer is converted to a double first, which
    raises [OverflowError] ("int too large to convert to float") once
    it rounds to [2^1024] or beyond, whatever its sign.  A negative [n]
    then has a complex power, which [int] refuses with a [TypeError]. *)
Definition int_sqrt (n : Z) : result Z :=
  let x := to_double (Z.abs n) in
  if 2 ^ 1024 <=? x then Raise OverflowError
  else if n <? 0 then Raise TypeError
  else Ok (double_sqrt_floor x).

(** [n.bit_length()] *)
Definition bit_length (n : Z) : Z :=
  if n =? 0 then 0 else Z.log2 (Z.abs n) + 1.

Definition byte_of_Z (z : Z) : byte :=
  match Byte.of_N (Z.to_N (z mod 256)) with
  | Some b => b
  | None => x00
  end.

Definition Z_of_byte (b : byte) : Z := Z.of_N (Byte.to_N b).

(** The [len] low bytes of [n], most significant first. *)
Fixpoint be_bytes (len : nat) (n : Z) : list byte :=
  match len with
  | O => []
  | S len' => be_bytes len' (n / 256) ++ [byte_of_Z n]
  end.

(** [n.to_bytes(length, 'big')], unsigned. *)
Definition to_bytes (n length : Z) : result (list byte) :=
  if length <? 0 then Raise ValueError
  else if n <? 0 then Raise OverflowError
  else if 256 ^ length <=? n then Raise OverflowError
  else Ok (be_bytes (Z.to_nat length) n).

(** [int.from_bytes(bs, 'big')] *)
Definition from_bytes (bs : list byte) : Z :=
  fold_left (fun acc b => acc * 256 + Z_of_byte b) bs 0.

(** Truth value of an [Optional[int]] in an [if]. *)
Definition truthy (v : option Z) : bool :=
  match v with
  | None => false
  | Some z => negb (z =? 0)
  end.

(** A [str] is a sequence of code points. *)
Definition str : Type := list Z.

Fixpoint str_eqb (s t : str) : bool :=
  match s, t with
  | [], [] => true
  | c :: s', c' :: t' => (c =? c') && str_eqb s' t'
  | _, _ => false
  end.

(** [chr(n)].  The argument is converted to a C [int] first: beyond 32
    bits that is an [OverflowError]; within, a value outside
    [range(0x110000)] is a [ValueError]. *)
Definition chr (n : Z) : result str :=
  if (n <? - 2 ^ 31) || (2 ^ 31 <=? n) then Raise OverflowError
  else if (0 <=? n) && (n <? 0x110000) then Ok [n]
  else Raise ValueError.

Definition is_surrogate (cp : Z) : bool := (0xD800 <=? cp) && (cp <=? 0xDFFF).

(** The UTF-8 bytes of one code point.  A surrogate cannot be encoded
    ([UnicodeEncodeError], which is a [ValueError]); a value that is not
    a code point cannot occur in a [str] and is refused as well. *)
Definition encode_code_point (cp : Z) : result (list byte) :=
  if cp <? 0 then Raise ValueError
  else if cp <? 0x80 then Ok [byte_of_Z cp]
  else if cp <? 0x800 then
    Ok [byte_of_Z (0xC0 + cp / 64); byte_of_Z (0x80 + cp mod 64)]
  else if cp <? 0x10000 then
    if is_surrogate cp then Raise ValueError
    else Ok [byte_of_Z (0xE0 + cp / 4096);
             byte_of_Z (0x80 + (cp / 64) mod 64);
             byte_of_Z (0x80 + cp mod 64)]
  else if cp <? 0x110000 then
    Ok [byte_of_Z (0xF0 + cp / 262144);
        byte_of_Z (0x80 + (cp / 4096) mod 64);
        byte_of_Z (0x80 + (cp / 64) mod 64);
        byte_of_Z (0x80 + cp mod 64)]
  else Raise ValueError.

(** [s.encode('utf-8')] *)
Fixpoint encode (s : str) : result (list byte) :=
  match s with
  | [] => Ok []
  | cp :: s' =>
      bind (encode_code_point cp) (fun bs =>
      bind (encode s') (fun rest => Ok (bs ++ rest)))
  end.

Definition continuation (v : Z) : bool := (0x80 <=? v) && (v <? 0xC0).

(** [bs.decode('utf-8')], strict: a lead byte announces the length, the
    following bytes must be continuation bytes, and the code point must
    need that length, be no surrogate and lie below 0x110000.  Any
    violation is a [UnicodeDecodeError], which is a [ValueError]. *)
Fixpoint decode (bs : list byte) : result str :=
  match bs with
  | [] => Ok []
  | b0 :: t0 =>
      let v0 := Z_of_byte b0 in
      if v0 <? 0x80 then bind (decode t0) (fun rest => Ok (v0 :: rest))
      else if v0 <? 0xC2 then Raise ValueError
      else if v0 <? 0xE0 then
        match t0 with
        | b1 :: t1 =>
            let v1 := Z_of_byte b1 in
            if continuation v1
            then bind (decode t1) (fun rest =>
                   Ok ((v0 - 0xC0) * 64 + (v1 - 0x80) :: rest))
            else Raise ValueError
        | _ => Raise ValueError
        end
      else if v0 <? 0xF0 then
        match t0 with
        | b1 :: b2 :: t2 =>
            let v1 := Z_of_byte b1 in
            let v2 := Z_of_byte b2 in
            let cp := (v0 - 0xE0) * 4096 + (v1 - 0x80) * 64 + (v2 - 0x80) in
            if continuation v1 && continuation v2 &&
               (0x800 <=? cp) && negb (is_surrogate cp)
            then bind (decode t2) (fun rest => Ok (cp :: rest))
            else Raise ValueError
        | _ => Raise ValueError
        end
      else if v0 <? 0xF5 then
        match t0 with
        | b1 :: b2 :: b3 :: t3 =>
            let v1 := Z_of_byte b1 in
            let v2 := Z_of_byte b2 in
            let v3 := Z_of_byte b3 in
            let cp := (v0 - 0xF0) * 262144 + (v1 - 0x80) * 4096
                      + (v2 - 0x80) * 64 + (v3 - 0x80) in
            if continuation v1 && continuation v2 && continuation v3 &&
               (0x10000 <=? cp) && (cp <? 0x110000)
            then bind (decode t3) (fun rest => Ok (cp :: rest))
            else Raise ValueError
        | _ => Raise ValueError
        end
      else Raise ValueError
  end.

(** The bytes without their leading zero bytes, and the text without
    its leading NUL characters. *)
Fixpoint strip_zeros (bs : list byte) : list byte :=
  match bs with
  | b :: bs' => if Z_of_byte b =? 0 then strip_zeros bs' else bs
  | [] => []
  end.

Fixpoint strip_nuls (s : str) : str :=
  match s with
  | c :: s' => if c =? 0 then strip_nuls s' else s
  | [] => []
  end.

End Py.

Import Py.

Notation "x <- r ;; k" := (bind r (fun x => k))
  (at level 61, r at next level, right associativity).

(** ** generate-8bit-RSA-keyPair.py *)

Module KeyPair.

Record RSAPublicNumbers : Type := {
  pub_e : Z;
  pub_n : Z
}.

Record RSAPrivateNumbers : Type := {
  priv_p : Z;
  priv_q : Z;
  priv_d : Z;
  dmp1 : Z;
  dmq1 : Z;
  iqmp : Z;
  public_numbers : RSAPublicNumbers
}.

(** [phi_n = (p - 1) * (q - 1)] *)
Definition phi_n (p q : Z) : Z := (p - 1) * (q - 1).

(** Line 39: the value printed after "e is coprime to phi(N):",
    [phi_n % e != 0]. *)
Definition coprime_report (p q e : Z) : result bool :=
  r <- mod_ (phi_n p q) e ;;
  Ok (negb (r =? 0)).

(** Line 48: the value printed as verification, [(e * d) % phi_n]. *)
Definition verification (p q e d : Z) : result Z :=
  mod_ (e * d) (phi_n p q).

(** Lines 52-60 (and lines 40-48 of the decryption script): the
    arguments of [rsa.RSAPrivateNumbers], evaluated in order. *)
Definition private_numbers (p q e d : Z) : result RSAPrivateNumbers :=
  dp <- mod_ d (p - 1) ;;
  dq <- mod_ d (q - 1) ;;
  iq <- pow q (-1) p ;;
  Ok {| priv_p := p; priv_q := q; priv_d := d;
        dmp1 := dp; dmq1 := dq; iqmp := iq;
        public_numbers := {| pub_e := e; pub_n := p * q |} |}.

(** What the script derives and prints before it serialises the key. *)
Record Derivation : Type := {
  der_N : Z;
  der_phi_n : Z;
  der_coprime : bool;
  der_verification : Z;
  der_key : RSAPrivateNumbers
}.

Definition script (p q e d : Z) : result Derivation :=
  cop <- coprime_report p q e ;;
  ver <- verification p q e d ;;
  key <- private_numbers p q e d ;;
  Ok {| der_N := p * q; der_phi_n := phi_n p q; der_coprime := cop;
        der_verification := ver; der_key := key |}.

End KeyPair.

(** ** The factoring loop shared by the two other scripts *)

Module Factoring.

(** [for i in range(lo, lo + count): if N % i == 0: ... break], with
    the pair [(i, N // i)] assigned at the first hit.  [lo] starts at
    two, so the remainder is always defined. *)
Fixpoint trial_loop (N : Z) (i : Z) (count : nat) : option (Z * Z) :=
  match count with
  | O => None
  | S count' =>
      if N mod i =? 0 then Some (i, N / i)
      else trial_loop N (i + 1) count'
  end.

(** [range(2, int(N**0.5) + 1)] has [int(N**0.5) - 1] elements when
    that is positive and none otherwise. *)
Definition trial_division (N : Z) : result (option (Z * Z)) :=
  r <- int_sqrt N ;;
  Ok (trial_loop N 2 (Z.to_nat (r + 1 - 2))).

End Factoring.

(** ** extract-8bit-RSA-publicKeyMaterial.py *)

Module Extract.

(** Lines 79-93: the modulus is factored only when it is below 1000. *)
Definition exposed_factors (modulus_n : Z) : result (option (Z * Z)) :=
  if modulus_n <? 1000 then Factoring.trial_division modulus_n
  else Ok None.

End Extract.

(** ** Shor-classicalEdition-8bit.py *)

Module Shor.

(** Line 62 *)
Definition raw_ciphertext (original_message e N : Z) : result Z :=
  pow original_message e N.

(** Line 66 *)
Definition decrypted_message (raw_ciphertext d N : Z) : result Z :=
  pow raw_ciphertext d N.

(** Lines 85-107.  [message_bytes] is the UTF-8 encoding of the text.
    When the number does not fit the modulus the script warns and goes
    on with 72, the code of 'H'. *)
Record TextRun : Type := {
  warned : bool;
  message_as_number : Z;
  encrypted_number : Z;
  decrypted_number : Z
}.

Definition text_run (message_bytes : list byte) (e d N : Z) : result TextRun :=
  let n0 := from_bytes message_bytes in
  let too_large := N <=? n0 in
  let n := if too_large then 72 else n0 in
  c <- pow n e N ;;
  m <- pow c d N ;;
  Ok {| warned := too_large; message_as_number := n;
        encrypted_number := c; decrypted_number := m |}.

(** Line 111 *)
Definition decrypted_bytes (decrypted_number : Z) : result (list byte) :=
  to_bytes decrypted_number ((bit_length decrypted_number + 7) / 8).

(** Lines 163-186: the four ways the attack can end. *)
Inductive Verdict : Type :=
| Compromised (found_p found_q phi_n found_d : Z)
| Mismatch (found_p found_q phi_n found_d : Z)
| InverseFailed (found_p found_q phi_n : Z)
| FactorFailed.

Definition attack (N e d : Z) : result Verdict :=
  found <- Factoring.trial_division N ;;
  let found_p := option_map fst found in
  let found_q := option_map snd found in
  if truthy found_p && truthy found_q then
    match found with
    | Some (fp, fq) =>
        let phi_n := (fp - 1) * (fq - 1) in
        match pow e (-1) phi_n with
        | Ok found_d =>
            if found_d =? d then Ok (Compromised fp fq phi_n found_d)
            else Ok (Mismatch fp fq phi_n found_d)
        | Raise ValueError => Ok (InverseFailed fp fq phi_n)
        | Raise x => Raise x
        end
    | None => Ok FactorFailed
    end
  else Ok FactorFailed.

(** The exponent the attacker prints, when there is one. *)
Definition recovered (v : Verdict) : option Z :=
  match v with
  | Compromised _ _ _ found_d => Some found_d
  | Mismatch _ _ _ found_d => Some found_d
  | InverseFailed _ _ _ => None
  | FactorFailed => None
  end.

(** Lines 58-73: the raw demonstration, with the outcome of the
    comparison [decrypted_message == original_message]. *)
Record RawRun : Type := {
  raw_c : Z;
  raw_m : Z;
  raw_works : bool
}.

Definition raw_run (original_message e d N : Z) : result RawRun :=
  c <- raw_ciphertext original_message e N ;;
  m <- decrypted_message c d N ;;
  Ok {| raw_c := c; raw_m := m; raw_works := m =? original_message |}.

(** Lines 109-120: the three messages the conversion back to text can
    end with. *)
Inductive TextOutcome : Type :=
| TextRecovered (decrypted_text : str)
| TextDiffers (decrypted_text : str)
| SingleCharacter (c : str).

(** The [try] block converts and decodes; the bare [except] catches
    whatever that raises and prints [chr(decrypted_number)] instead,
    which is not protected. *)
Definition text_outcome (decrypted_number : Z) (text_message : str)
  : result TextOutcome :=
  match (bs <- decrypted_bytes decrypted_number ;; decode bs) with
  | Ok decrypted_text =>
      if str_eqb decrypted_text text_message
      then Ok (TextRecovered decrypted_text)
      else Ok (TextDiffers decrypted_text)
  | Raise _ =>
      c <- chr decrypted_number ;;
      Ok (SingleCharacter c)
  end.

(** Lines 81-120 as a whole.  On overflow [text_message] becomes
    [chr(72)] together with the number. *)
Definition text_script (text_message : str) (e d N : Z)
  : result (TextRun * TextOutcome) :=
  message_bytes <- encode text_message ;;
  run <- text_run message_bytes e d N ;;
  let text_message' := if warned run then [72] else text_message in
  out <- text_outcome (decrypted_number run) text_message' ;;
  Ok (run, out).

End Shor.

(** ** The key pairs the scripts are meant for *)

Module Key.

Import KeyPair.

(** The invariants that the comments of the scripts state for their
    constants: two distinct primes, a positive public exponent coprime
    with [phi_n], and a non-negative private exponent inverse to it. *)
Record Valid (p q e d : Z) : Prop := {
  p_prime : Z.prime p;
  q_prime : Z.prime q;
  distinct : p <> q;
  e_positive : 0 < e;
  e_coprime : Z.gcd e (phi_n p q) = 1;
  d_nonneg : 0 <= d;
  d_inverse : (e * d) mod phi_n p q = 1
}.

(** A primality test by exhaustive division, to run on the constants. *)
Fixpoint no_divisor (p i : Z) (count : nat) : bool :=
  match count with
  | O => true
  | S count' => negb (p mod i =? 0) && no_divisor p (i + 1) count'
  end.

Definition primeb (p : Z) : bool :=
  (1 <? p) && no_divisor p 2 (Z.to_nat (p - 2)).

End Key.

(** ** Decryption through the Chinese remainder theorem *)

Module Crt.

Import KeyPair.

(** Modelled from the spec: the CRT-accelerated decryption path.  The
    scripts compute [dmp1], [dmq1] and [iqmp] and hand them to the
    external [cryptography] package; the recombination itself is not
    in the repository.  Following the spec, the residues modulo [p]
    and [q] are the powers with [dmp1] and [dmq1], and they are
    combined through [iqmp], the inverse of [q] modulo [p]. *)
Definition crt_decrypt (c : Z) (k : RSAPrivateNumbers) : result Z :=
  m1 <- pow c (dmp1 k) (priv_p k) ;;
  m2 <- pow c (dmq1 k) (priv_q k) ;;
  h <- mod_ (iqmp k * (m1 - m2)) (priv_p k) ;;
  Ok (m2 + h * priv_q k).

End Crt.

(** * Arithmetic behind the scripts *)

Module Arith.

Lemma divide_mul_coprime (p q z : Z) :
  (p | z) -> (q | z) -> Z.gcd p q = 1 -> (p * q | z).
Proof.
  intros [k Hk] Hq Hg. subst z.
  assert (Hqk : (q | k)).
  { apply Z.gauss with (m := p).
    - now rewrite Z.mul_comm.
    - now rewrite Z.gcd_comm. }
  destruct Hqk as [j Hj]. exists j. subst k. ring.
Qed.

Lemma cong_mul_coprime (p q x y : Z) :
  p <> 0 -> q <> 0 -> Z.gcd p q = 1 ->
  x mod p = y mod p -> x mod q = y mod q ->
  x mod (p * q) = y mod (p * q).
Proof.
  intros Hp Hq Hg Hxp Hxq.
  apply Z.cong_iff_0 in Hxp, Hxq. apply Z.cong_iff_0.
  apply Z.mod_divide in Hxp, Hxq; try assumption.
  apply Z.mod_divide; [lia|].
  now apply divide_mul_coprime.
Qed.

Lemma distinct_primes_coprime (p q : Z) :
  Z.prime p -> Z.prime q -> p <> q -> Z.gcd p q = 1.
Proof.
  intros Hp Hq Hne.
  apply Z.coprime_prime_l; [assumption|].
  intros Hd. apply Z.divide_prime_prime in Hd; try assumption.
  contradiction.
Qed.

(** The totient of a product of two distinct primes is at least two. *)
Lemma phi_ge_2 (p q : Z) :
  Z.prime p -> Z.prime q -> p <> q -> 2 <= (p - 1) * (q - 1).
Proof.
  intros Hp Hq Hne.
  pose proof (Z.prime_ge_2 _ Hp). pose proof (Z.prime_ge_2 _ Hq). nia.
Qed.

(** Fermat's little theorem, for an exponent taken apart modulo
    [p - 1]. *)
Lemma fermat_exp (p a k r : Z) :
  Z.prime p -> a mod p <> 0 -> 0 <= k -> 0 <= r ->
  a ^ (k * (p - 1) + r) mod p = a ^ r mod p.
Proof.
  intros Hp Ha Hk Hr.
  pose proof (Z.prime_ge_2 _ Hp) as H2.
  rewrite Z.pow_add_r by nia.
  rewrite (Z.mul_comm k), Z.pow_mul_r by lia.
  rewrite Z.mul_mod by lia.
  rewrite <- Z.mod_pow_l.
  rewrite (Z.fermat_nz p a Hp Ha).
  rewrite Z.pow_1_l by assumption.
  rewrite (Z.mod_small 1) by lia.
  rewrite Z.mul_1_l. apply Z.mod_mod. lia.
Qed.

(** [a ^ t] is [a] modulo the prime [p] as soon as [t] is one modulo
    [p - 1]. *)
Lemma pow_cong_self (p a t : Z) :
  Z.prime p -> 1 <= t -> (p - 1 | t - 1) ->
  a ^ t mod p = a mod p.
Proof.
  intros Hp Ht [k Hk].
  pose proof (Z.prime_ge_2 _ Hp) as H2.
  destruct (Z.eq_dec (a mod p) 0) as [Hz | Hnz].
  - rewrite <- Z.mod_pow_l, Hz, Z.pow_0_l by lia. reflexivity.
  - assert (Hk0 : 0 <= k) by nia.
    replace t with (k * (p - 1) + 1) by lia.
    rewrite fermat_exp by (assumption || lia).
    now rewrite Z.pow_1_r.
Qed.

(** Reducing the exponent modulo [p - 1] does not change the power
    modulo [p], provided the exponent is coprime with [p - 1] and
    [p] is odd. *)
Lemma pow_exp_mod (p a t : Z) :
  Z.prime p -> 2 < p -> 0 <= t -> Z.gcd t (p - 1) = 1 ->
  a ^ (t mod (p - 1)) mod p = a ^ t mod p.
Proof.
  intros Hp Hodd Ht Hg.
  assert (Hr : 0 <= t mod (p - 1) < p - 1) by (apply Z.mod_pos_bound; lia).
  assert (Hq : 0 <= t / (p - 1)) by (apply Z.div_pos; lia).
  pose proof (Z.div_mod t (p - 1) ltac:(lia)) as Hdm.
  destruct (Z.eq_dec (a mod p) 0) as [Hz | Hnz].
  - assert (Hr1 : t mod (p - 1) <> 0).
    { intros H0. apply Z.mod_divide in H0; [|lia].
      assert (Hd : (p - 1 | 1)).
      { rewrite <- Hg at 2. apply Z.gcd_greatest; [assumption | apply Z.divide_refl]. }
      apply Z.divide_1_r_nonneg in Hd; lia. }
    assert (Ht1 : 0 < t).
    { destruct (Z.eq_dec t 0) as [-> | ?]; [|lia].
      now rewrite Z.mod_0_l in Hr1 by lia. }
    rewrite <- (Z.mod_pow_l a (t mod (p - 1))), <- (Z.mod_pow_l a t), Hz.
    rewrite !Z.pow_0_l by lia. reflexivity.
  - rewrite Hdm at 2.
    rewrite (Z.mul_comm (p - 1)).
    now rewrite fermat_exp by (assumption || lia).
Qed.

(** [e * d = 1] modulo [m] makes [d] coprime with every divisor of
    [m]. *)
Lemma inverse_coprime_divisor (e d m n : Z) :
  2 <= m -> (e * d) mod m = 1 -> (n | m) -> Z.gcd d n = 1.
Proof.
  intros Hm Hed [j Hj].
  pose proof (Z.div_mod (e * d) m ltac:(lia)) as Hdm.
  rewrite Hed in Hdm.
  apply Z.bezout_1_gcd. exists e, (- (j * ((e * d) / m))).
  rewrite Hj in Hdm at 1. lia.
Qed.

End Arith.

(** * Facts about the built-in operations *)

Module PyFacts.

(** The loop keeps the greatest common divisor of [(a, n)] and, modulo
    [m], the two cofactor equations with the original base [a0]. *)
Lemma invmod_loop_spec (a0 m : Z) :
  forall (fuel : nat) (a n b c : Z),
    0 <= n -> (n = 0 -> 0 <= a) -> (Z.to_nat n < fuel)%nat ->
    (m | b * a0 - a) -> (m | c * a0 - n) ->
    Z.gcd a n = fst (invmod_loop fuel a n b c) /\
    (m | snd (invmod_loop fuel a n b c) * a0 - fst (invmod_loop fuel a n b c)).
Proof.
  induction fuel as [| fuel IH]; intros a n b c Hn Ha Hfuel Hb Hc.
  - lia.
  - cbn [invmod_loop]. destruct (Z.eqb_spec n 0) as [-> | Hnz].
    + cbn [fst snd]. rewrite Z.gcd_0_r, Z.abs_eq by auto. auto.
    + assert (Hr : 0 <= a mod n < n) by (apply Z.mod_pos_bound; lia).
      destruct (IH n (a mod n) c (b - a / n * c)) as [Hg Hd];
        try lia; try assumption.
      * replace ((b - a / n * c) * a0 - a mod n)
          with ((b * a0 - a) - a / n * (c * a0 - n))
          by (rewrite (Z.mod_eq a n) by assumption; ring).
        apply Z.divide_sub_r; [assumption|].
        now apply Z.divide_mul_r.
      * split; [|assumption].
        rewrite <- Hg, (Z.gcd_comm n (a mod n)), Z.gcd_mod by assumption.
        apply Z.gcd_comm.
Qed.

Lemma long_invmod_ok (a n : Z) :
  0 < n -> Z.gcd a n = 1 ->
  exists x, long_invmod a n = Ok x /\ (n | x * a - 1).
Proof.
  intros Hn Hg. unfold long_invmod.
  destruct (invmod_loop_spec a n (S (Z.to_nat n)) a n 1 0) as [Hgcd Hdiv];
    try lia.
  - exists 0. ring.
  - exists (-1). ring.
  - destruct (invmod_loop (S (Z.to_nat n)) a n 1 0) as [g x].
    cbn [fst snd] in *. rewrite Hg in Hgcd. subst g.
    exists x. split; [reflexivity | assumption].
Qed.

Lemma long_invmod_fails (a n : Z) :
  0 < n -> Z.gcd a n <> 1 -> long_invmod a n = Raise ValueError.
Proof.
  intros Hn Hg. unfold long_invmod.
  destruct (invmod_loop_spec a n (S (Z.to_nat n)) a n 1 0) as [Hgcd _];
    try lia.
  - exists 0. ring.
  - exists (-1). ring.
  - destruct (invmod_loop (S (Z.to_nat n)) a n 1 0) as [g x].
    cbn [fst] in Hgcd. subst g.
    destruct (Z.eqb_spec (Z.gcd a n) 1); [contradiction | reflexivity].
Qed.

(** With a non-negative exponent [pow] is exponentiation followed by
    reduction. *)
Lemma pow_nonneg (a b c : Z) :
  1 <= c -> 0 <= b -> pow a b c = Ok (a ^ b mod c).
Proof.
  intros Hc Hb. unfold pow.
  destruct (Z.eqb_spec c 0); [lia|].
  destruct (Z.eqb_spec (Z.abs c) 1) as [H1 | H1].
  - replace c with 1 by lia. now rewrite Z.mod_1_r.
  - destruct (Z.ltb_spec b 0); [lia | reflexivity].
Qed.

Lemma pow_inverse_ok (a m : Z) :
  2 <= m -> Z.gcd a m = 1 ->
  exists x, pow a (-1) m = Ok x /\ 0 <= x < m /\ (a * x) mod m = 1.
Proof.
  intros Hm Hg. unfold pow.
  destruct (Z.eqb_spec m 0); [lia|].
  destruct (Z.eqb_spec (Z.abs m) 1); [lia|].
  change (-1 <? 0) with true. cbv iota.
  rewrite Z.abs_eq by lia.
  destruct (long_invmod_ok a m ltac:(lia) Hg) as (x & -> & Hx).
  cbn [bind]. change (- -1) with 1. rewrite Z.pow_1_r.
  exists (x mod m). split; [reflexivity|].
  split; [apply Z.mod_pos_bound; lia|].
  rewrite Z.mul_mod_idemp_r by lia.
  apply Z.mod_divide in Hx; [|lia].
  apply Z.cong_iff_0 in Hx.
  rewrite (Z.mul_comm a), Hx. apply Z.mod_small. lia.
Qed.

Lemma pow_inverse_fails (a m : Z) :
  2 <= m -> Z.gcd a m <> 1 -> pow a (-1) m = Raise ValueError.
Proof.
  intros Hm Hg. unfold pow.
  destruct (Z.eqb_spec m 0); [lia|].
  destruct (Z.eqb_spec (Z.abs m) 1); [lia|].
  change (-1 <? 0) with true. cbv iota.
  rewrite Z.abs_eq by lia.
  now rewrite long_invmod_fails by (assumption || lia).
Qed.

(** Two inverses of [a] below [m] are equal. *)
Lemma inverse_unique (a m x y : Z) :
  1 <= m -> 0 <= x < m -> 0 <= y < m ->
  (a * x) mod m = 1 mod m -> (a * y) mod m = 1 mod m -> x = y.
Proof.
  intros Hm Hx Hy Hax Hay.
  assert (Hxy : x mod m = y mod m).
  { transitivity ((a * x * y) mod m).
    - replace (a * x * y) with (x * (a * y)) by ring.
      rewrite <- Z.mul_mod_idemp_r, Hay, Z.mul_mod_idemp_r by lia.
      now rewrite Z.mul_1_r.
    - rewrite <- Z.mul_mod_idemp_l, Hax, Z.mul_mod_idemp_l by lia.
      now rewrite Z.mul_1_l. }
  now rewrite !Z.mod_small in Hxy by assumption.
Qed.

End PyFacts.

(** * Valid keys *)

Module KeyFacts.

Import KeyPair Key.

Lemma no_divisor_spec (p : Z) :
  forall (count : nat) (i : Z),
    no_divisor p i count = true ->
    forall n, i <= n < i + Z.of_nat count -> p mod n <> 0.
Proof.
  induction count as [| count IH]; intros i Hnd n Hn.
  - lia.
  - cbn [no_divisor] in Hnd. apply andb_true_iff in Hnd as [Hi Hrest].
    destruct (Z.eq_dec n i) as [-> | Hne].
    + apply negb_true_iff in Hi. now apply Z.eqb_neq in Hi.
    + apply (IH (i + 1) Hrest). lia.
Qed.

Lemma primeb_sound (p : Z) : primeb p = true -> Z.prime p.
Proof.
  unfold primeb. intros H. apply andb_true_iff in H as [H1 Hnd].
  apply Z.ltb_lt in H1. split; [assumption|].
  intros n Hn Hdiv.
  apply (no_divisor_spec p _ _ Hnd n); [lia|].
  apply Z.mod_divide; [lia | assumption].
Qed.

(** The constants of the scripts form a valid key. *)
Lemma demo_key_valid : Valid 11 17 3 107.
Proof.
  split; try (apply primeb_sound; reflexivity); try reflexivity; lia.
Qed.

Section WithValidKey.

Variables p q e d : Z.
Hypothesis HV : Valid p q e d.

Lemma p_ge_2 : 2 <= p.
Proof. apply Z.prime_ge_2, HV. Qed.

Lemma q_ge_2 : 2 <= q.
Proof. apply Z.prime_ge_2, HV. Qed.

Lemma modulus_ge_6 : 6 <= p * q.
Proof.
  pose proof p_ge_2. pose proof q_ge_2. pose proof (distinct _ _ _ _ HV). nia.
Qed.

Lemma phi_n_ge_2 : 2 <= phi_n p q.
Proof. apply Arith.phi_ge_2; apply HV. Qed.

Lemma exponent_product_ge_1 : 1 <= e * d.
Proof.
  pose proof (e_positive _ _ _ _ HV). pose proof (d_nonneg _ _ _ _ HV).
  pose proof (d_inverse _ _ _ _ HV) as Hinv.
  pose proof phi_n_ge_2 as Hphi.
  destruct (Z.eq_dec (e * d) 0) as [Hz | Hz]; [|nia].
  rewrite Hz, Z.mod_0_l in Hinv by lia. lia.
Qed.

Lemma phi_divides : (phi_n p q | e * d - 1).
Proof.
  pose proof phi_n_ge_2.
  apply Z.mod_divide; [lia|]. apply Z.cong_iff_0.
  rewrite (d_inverse _ _ _ _ HV). symmetry. apply Z.mod_small. lia.
Qed.

Lemma p_pred_divides : (p - 1 | e * d - 1).
Proof.
  apply Z.divide_trans with (phi_n p q); [|apply phi_divides].
  exists (q - 1). unfold phi_n. ring.
Qed.

Lemma q_pred_divides : (q - 1 | e * d - 1).
Proof.
  apply Z.divide_trans with (phi_n p q); [|apply phi_divides].
  exists (p - 1). unfold phi_n. ring.
Qed.

(** The identity behind RSA: raising to [e * d] is the identity
    modulo [p * q]. *)
Lemma rsa_identity (m : Z) : m ^ (e * d) mod (p * q) = m mod (p * q).
Proof.
  pose proof p_ge_2. pose proof q_ge_2.
  apply Arith.cong_mul_coprime; try lia.
  - apply Arith.distinct_primes_coprime; apply HV.
  - apply Arith.pow_cong_self;
      [apply HV | apply exponent_product_ge_1 | apply p_pred_divides].
  - apply Arith.pow_cong_self;
      [apply HV | apply exponent_product_ge_1 | apply q_pred_divides].
Qed.

(** Raising to [e] and then to [d], reducing each time, gives a
    residue back. *)
Lemma power_round_trip (m : Z) :
  0 <= m < p * q -> (m ^ e mod (p * q)) ^ d mod (p * q) = m.
Proof.
  intros Hm.
  pose proof (e_positive _ _ _ _ HV). pose proof (d_nonneg _ _ _ _ HV).
  rewrite Z.mod_pow_l, <- Z.pow_mul_r by lia.
  rewrite rsa_identity. apply Z.mod_small. lia.
Qed.

Lemma d_coprime_p_pred : Z.gcd d (p - 1) = 1.
Proof.
  apply (Arith.inverse_coprime_divisor e d (phi_n p q));
    [apply phi_n_ge_2 | apply HV |].
  exists (q - 1). unfold phi_n. ring.
Qed.

Lemma d_coprime_q_pred : Z.gcd d (q - 1) = 1.
Proof.
  apply (Arith.inverse_coprime_divisor e d (phi_n p q));
    [apply phi_n_ge_2 | apply HV |].
  exists (p - 1). unfold phi_n. ring.
Qed.

End WithValidKey.

End KeyFacts.

(** * Encryption and decryption *)

Module ShorFacts.

Import KeyPair Key Shor.

(** C1.  Round trip: for every valid key pair (distinct primes [p] and
    [q], a public exponent [e] coprime with [(p-1)*(q-1)], a private
    exponent [d] inverse to it) and every message [m] with
    [0 <= m < N], the script's encryption [m^e mod N] succeeds and the
    decryption [c^d mod N] of its result gives [m] back. *)
Theorem rsa_round_trip (p q e d m : Z) :
  Valid p q e d -> 0 <= m < p * q ->
  exists c, raw_ciphertext m e (p * q) = Ok c /\
            decrypted_message c d (p * q) = Ok m.
Proof.
  intros HV Hm.
  pose proof (KeyFacts.modulus_ge_6 _ _ _ _ HV) as HN.
  pose proof (e_positive _ _ _ _ HV) as He.
  pose proof (d_nonneg _ _ _ _ HV) as Hd.
  exists (m ^ e mod (p * q)). unfold raw_ciphertext, decrypted_message.
  rewrite !PyFacts.pow_nonneg by lia. split; [reflexivity|].
  f_equal. now apply KeyFacts.power_round_trip.
Qed.

Lemma rsa_round_trip_witness :
  exists c, raw_ciphertext 42 3 (11 * 17) = Ok c /\
            decrypted_message c 107 (11 * 17) = Ok 42.
Proof.
  apply (rsa_round_trip 11 17 3 107 42).
  - exact KeyFacts.demo_key_valid.
  - lia.
Defined.

(** C9.  Closure: for every modulus [N >= 1], whatever [pow] returns
    as ciphertext lies in [0, N), and so does whatever it returns as
    decrypted message; with non-negative exponents both calls return,
    so a ciphertext made from a message is always a legal input of the
    decryption. *)
Theorem ciphertext_in_range (N e d m : Z) :
  1 <= N ->
  (forall c, raw_ciphertext m e N = Ok c -> 0 <= c < N) /\
  (forall c m', decrypted_message c d N = Ok m' -> 0 <= m' < N) /\
  (0 <= e -> 0 <= d ->
   exists c m', raw_ciphertext m e N = Ok c /\ 0 <= c < N /\
                decrypted_message c d N = Ok m' /\ 0 <= m' < N).
Proof.
  intros HN.
  assert (Hrange : forall a b r, pow a b N = Ok r -> 0 <= r < N).
  { intros a b r. unfold pow.
    destruct (Z.eqb_spec N 0); [lia|].
    destruct (Z.eqb_spec (Z.abs N) 1).
    - intros [= <-]. lia.
    - destruct (Z.ltb_spec b 0).
      + destruct (long_invmod a (Z.abs N)); cbn [bind]; [|discriminate].
        intros [= <-]. apply Z.mod_pos_bound. lia.
      + intros [= <-]. apply Z.mod_pos_bound. lia. }
  split; [|split].
  - intros c. apply Hrange.
  - intros c m'. apply Hrange.
  - intros He Hd. unfold raw_ciphertext, decrypted_message.
    exists (m ^ e mod N), ((m ^ e mod N) ^ d mod N).
    rewrite !PyFacts.pow_nonneg by lia.
    repeat split; try reflexivity; apply Z.mod_pos_bound; lia.
Qed.

Lemma ciphertext_in_range_witness :
  exists c m', raw_ciphertext 42 3 187 = Ok c /\ 0 <= c < 187 /\
               decrypted_message c 107 187 = Ok m' /\ 0 <= m' < 187.
Proof.
  apply (ciphertext_in_range 187 3 107 42); lia.
Defined.

End ShorFacts.

(** * The modular inverse *)

Module InverseFacts.

(** C6, as amended.  For every [a] and every modulus [m >= 1] coprime
    with [a], [pow(a, -1, m)] returns the unique [x] in [0, m) with
    [a * x] congruent to one modulo [m]; the product reduces to the
    number one exactly when [m >= 2] (modulo one it reduces to zero).
    When [a] and [m] are not coprime the call raises [ValueError]. *)
Theorem pow_inverse_correct (a m : Z) :
  1 <= m ->
  (Z.gcd a m = 1 ->
   exists x, pow a (-1) m = Ok x /\ 0 <= x < m /\
             (a * x) mod m = 1 mod m /\
             (2 <= m -> (a * x) mod m = 1) /\
             (forall y, 0 <= y < m -> (a * y) mod m = 1 mod m -> y = x)) /\
  (Z.gcd a m <> 1 -> pow a (-1) m = Raise ValueError).
Proof.
  intros Hm.
  destruct (Z.eq_dec m 1) as [-> | Hm1].
  - split.
    + intros _. exists 0. split; [reflexivity|]. split; [lia|].
      rewrite !Z.mod_1_r. repeat split; try lia.
    + intros Hg. now rewrite Z.gcd_1_r in Hg.
  - split.
    + intros Hg.
      destruct (PyFacts.pow_inverse_ok a m ltac:(lia) Hg) as (x & Hx & Hr & Hinv).
      exists x. rewrite (Z.mod_small 1 m) by lia.
      repeat split; try assumption; try lia.
      intros y Hy Hay. apply (PyFacts.inverse_unique a m); try lia.
      all: rewrite (Z.mod_small 1 m) by lia; assumption.
    + intros Hg. apply PyFacts.pow_inverse_fails; [lia | assumption].
Qed.

Lemma pow_inverse_correct_witness :
  (Z.gcd 3 160 = 1 ->
   exists x, pow 3 (-1) 160 = Ok x /\ 0 <= x < 160 /\
             (3 * x) mod 160 = 1 mod 160 /\
             (2 <= 160 -> (3 * x) mod 160 = 1) /\
             (forall y, 0 <= y < 160 -> (3 * y) mod 160 = 1 mod 160 -> y = x)) /\
  (Z.gcd 3 160 <> 1 -> pow 3 (-1) 160 = Raise ValueError).
Proof.
  apply (pow_inverse_correct 3 160). lia.
Defined.

(** C6 as stated fails at modulus one, which the claim allows: 5 and 1
    are coprime and the call returns 0, but no product reduces to one
    modulo one. *)
Lemma inverse_modulo_one :
  1 <= 1 /\ Z.gcd 5 1 = 1 /\ pow 5 (-1) 1 = Ok 0 /\
  forall x, (5 * x) mod 1 <> 1.
Proof.
  repeat split; try reflexivity; try lia.
  intros x. rewrite Z.mod_1_r. lia.
Qed.

End InverseFacts.

(** * The floating-point square root *)

Module RootFacts.

Lemma to_double_small (n : Z) : n < 2 ^ 53 -> to_double n = n.
Proof.
  intros H. unfold to_double.
  destruct (Z.ltb_spec n (2 ^ 53)); [reflexivity | lia].
Qed.

Lemma four_pow (t : Z) : 0 <= t -> 4 ^ t = 2 ^ t * 2 ^ t.
Proof.
  intros Ht. change 4 with (2 ^ 2).
  rewrite <- Z.pow_mul_r, <- Z.pow_add_r by lia. f_equal. lia.
Qed.

(** The conversion moves an integer by less than its own size. *)
Lemma to_double_bounds (n : Z) : 0 <= n -> 0 <= to_double n <= 2 * n.
Proof.
  intros Hn. unfold to_double.
  destruct (Z.ltb_spec n (2 ^ 53)) as [Hs | Hb]; [lia|].
  assert (Hlog : 53 <= Z.log2 n) by (apply Z.log2_le_pow2; lia).
  set (k := Z.log2 n - 52).
  assert (HP : 0 < 2 ^ k) by (apply Z.pow_pos_nonneg; lia).
  assert (HPn : 2 ^ k <= n).
  { transitivity (2 ^ Z.log2 n).
    - apply Z.pow_le_mono_r; lia.
    - apply Z.log2_spec. lia. }
  pose proof (Z.div_mod n (2 ^ k) ltac:(lia)) as Hdm.
  pose proof (Z.mod_pos_bound n (2 ^ k) HP) as Hr.
  assert (Hq : 0 <= n / 2 ^ k) by (apply Z.div_pos; lia).
  set (q := n / 2 ^ k) in *. set (r := n mod 2 ^ k) in *.
  assert (Hq' : forall q', q <= q' <= q + 1 -> 0 <= q' * 2 ^ k <= 2 * n)
    by (intros; nia).
  destruct (r <? 2 ^ (k - 1)); [apply Hq'; lia|].
  destruct (2 ^ (k - 1) <? r); [apply Hq'; lia|].
  destruct (Z.even q); apply Hq'; lia.
Qed.

(** An integer of at least [2^1024] does not become smaller than that
    by rounding. *)
Lemma to_double_overflow (n : Z) : 2 ^ 1024 <= n -> 2 ^ 1024 <= to_double n.
Proof.
  intros Hn. unfold to_double.
  destruct (Z.ltb_spec n (2 ^ 53)) as [Hs | Hb]; [lia|].
  assert (Hlog : 1024 <= Z.log2 n).
  { change 1024 with (Z.log2 (2 ^ 1024)). apply Z.log2_le_mono. assumption. }
  set (k := Z.log2 n - 52).
  assert (HP : 0 < 2 ^ k) by (apply Z.pow_pos_nonneg; lia).
  assert (Hsplit : 2 ^ Z.log2 n = 2 ^ 52 * 2 ^ k).
  { rewrite <- Z.pow_add_r by lia. f_equal. lia. }
  assert (Hlo : 2 ^ Z.log2 n <= n) by (apply Z.log2_spec; lia).
  assert (Hbig : 2 ^ 1024 <= 2 ^ Z.log2 n) by (apply Z.pow_le_mono_r; lia).
  assert (Hq : 2 ^ 52 <= n / 2 ^ k) by (apply Z.div_le_lower_bound; lia).
  set (q := n / 2 ^ k) in *. set (r := n mod 2 ^ k) in *.
  assert (Hq' : forall q', q <= q' -> 2 ^ 1024 <= q' * 2 ^ k) by (intros; nia).
  destruct (r <? 2 ^ (k - 1)); [apply Hq'; lia|].
  destruct (2 ^ (k - 1) <? r); [apply Hq'; lia|].
  destruct (Z.even q); apply Hq'; lia.
Qed.

(** Below [2^52] the rounded root, truncated, is the integer square
    root: the significand has at least 27 bits after the binary point,
    and rounding it up cannot reach the next integer. *)
Lemma double_sqrt_floor_exact (x : Z) :
  0 <= x < 2 ^ 52 -> double_sqrt_floor x = Z.sqrt x.
Proof.
  intros Hx. unfold double_sqrt_floor.
  destruct (Z.eqb_spec x 0) as [-> | Hnz]; [reflexivity|].
  assert (Hlog : 0 <= Z.log2 x < 52).
  { split; [apply Z.log2_nonneg|]. apply Z.log2_lt_pow2; lia. }
  set (E := Z.log2 x / 2).
  assert (HE : 0 <= E <= 25)
    by (unfold E; Z.to_euclidean_division_equations; lia).
  destruct (Z.leb_spec E 52); [|lia].
  set (t := 52 - E). rewrite (four_pow t) by lia. set (T := 2 ^ t).
  assert (HT : 2 ^ 27 <= T) by (unfold T; apply Z.pow_le_mono_r; lia).
  set (k := Z.sqrt x).
  pose proof (Z.sqrt_spec x ltac:(lia)) as Hk. fold k in Hk. cbv zeta in Hk.
  assert (Hk26 : k < 2 ^ 26) by (apply Z.sqrt_lt_square; lia).
  assert (Hk0 : 0 <= k) by apply Z.sqrt_nonneg.
  set (y := x * (T * T)).
  set (s := Z.sqrt y).
  assert (Hy : 0 <= y) by (unfold y; nia).
  pose proof (Z.sqrt_spec y Hy) as Hs. fold s in Hs. cbv zeta in Hs.
  assert (Hs0 : 0 <= s) by apply Z.sqrt_nonneg.
  assert (Hlo : k * T <= s) by (apply Z.sqrt_le_square; unfold y; nia).
  assert (Hhi : s < (k + 1) * T) by (apply Z.sqrt_lt_square; unfold y; nia).
  symmetry.
  apply Z.div_unique_pos
    with (r := (if y - s * s <=? s then s else s + 1) - k * T); [|lia].
  destruct (Z.leb_spec (y - s * s) s) as [Hd | Hu]; [lia|].
  split; [lia|].
  assert (s + 1 <> (k + 1) * T).
  { intros Heq.
    assert (y <= ((k + 1) * (k + 1) - 1) * (T * T)) by (unfold y; nia).
    assert (s = (k + 1) * T - 1) by lia. subst s. nia. }
  lia.
Qed.

(** Everywhere, the square of the result is at most four times the
    argument. *)
Lemma double_sqrt_floor_square (x : Z) :
  0 <= x ->
  0 <= double_sqrt_floor x /\
  double_sqrt_floor x * double_sqrt_floor x <= 4 * x.
Proof.
  intros Hx. unfold double_sqrt_floor.
  destruct (Z.eqb_spec x 0) as [-> | Hnz]; [lia|].
  assert (Hlog : 0 <= Z.log2 x) by apply Z.log2_nonneg.
  set (E := Z.log2 x / 2).
  assert (HE : 0 <= E /\ 2 * E <= Z.log2 x)
    by (unfold E; Z.to_euclidean_division_equations; lia).
  destruct (Z.leb_spec E 52) as [Hle | Hgt].
  - set (t := 52 - E). rewrite (four_pow t) by lia. set (T := 2 ^ t).
    assert (HT : 0 < T) by (apply Z.pow_pos_nonneg; lia).
    set (y := x * (T * T)).
    assert (Hy : 1 <= y) by (unfold y; nia).
    set (s := Z.sqrt y).
    pose proof (Z.sqrt_spec y ltac:(lia)) as Hs. fold s in Hs. cbv zeta in Hs.
    assert (Hs1 : 1 <= s) by (apply Z.sqrt_le_square; lia).
    set (sig := if y - s * s <=? s then s else s + 1).
    assert (Hsig : 0 <= sig <= 2 * s)
      by (unfold sig; destruct (y - s * s <=? s); lia).
    assert (Hr : 0 <= sig / T) by (apply Z.div_pos; lia).
    assert (HrT : sig / T * T <= sig)
      by (rewrite Z.mul_comm; apply Z.mul_div_le; lia).
    split; [assumption|].
    set (r := sig / T) in *.
    assert (r * T * (r * T) <= 4 * y) by nia.
    unfold y in *. nia.
  - set (u := E - 52). rewrite (four_pow u) by lia. set (U := 2 ^ u).
    assert (HU : 0 < U) by (apply Z.pow_pos_nonneg; lia).
    assert (HUx : U * U <= x).
    { unfold U. rewrite <- (four_pow u) by lia.
      change 4 with (2 ^ 2). rewrite <- Z.pow_mul_r by lia.
      transitivity (2 ^ Z.log2 x);
        [apply Z.pow_le_mono_r; lia | apply Z.log2_spec; lia]. }
    set (z := x / (U * U)).
    assert (Hz : 1 <= z) by (apply Z.div_le_lower_bound; lia).
    assert (HzU : z * (U * U) <= x)
      by (rewrite Z.mul_comm; apply Z.mul_div_le; lia).
    set (s := Z.sqrt z).
    pose proof (Z.sqrt_spec z ltac:(lia)) as Hs. fold s in Hs. cbv zeta in Hs.
    assert (Hs1 : 1 <= s) by (apply Z.sqrt_le_square; lia).
    set (sig := if U * U * ((2 * s + 1) * (2 * s + 1)) <? 4 * x
                then s + 1 else s).
    assert (Hsig : 0 <= sig <= 2 * s)
      by (unfold sig; destruct (_ <? _); lia).
    split; [nia|].
    assert (sig * sig <= 4 * z) by nia.
    assert (sig * sig * (U * U) <= 4 * z * (U * U))
      by (apply Z.mul_le_mono_nonneg_r; nia).
    nia.
Qed.

(** [int(N ** 0.5)] is the integer square root for every [N] below
    [2^52]. *)
Lemma int_sqrt_exact (N : Z) :
  0 <= N < 2 ^ 52 -> int_sqrt N = Ok (Z.sqrt N).
Proof.
  intros HN. unfold int_sqrt.
  rewrite Z.abs_eq, to_double_small by lia.
  destruct (Z.leb_spec (2 ^ 1024) N); [lia|].
  destruct (Z.ltb_spec N 0); [lia|].
  now rewrite double_sqrt_floor_exact.
Qed.

(** From [2^1024] on the conversion to a double fails. *)
Lemma int_sqrt_overflow (N : Z) :
  2 ^ 1024 <= N -> int_sqrt N = Raise OverflowError.
Proof.
  intros HN. unfold int_sqrt. rewrite Z.abs_eq by lia.
  pose proof (to_double_overflow N HN).
  destruct (Z.leb_spec (2 ^ 1024) (to_double N)); [reflexivity | lia].
Qed.

(** For a non-negative argument nothing else can be raised. *)
Lemma int_sqrt_raises (N : Z) (x : exn) :
  0 <= N -> int_sqrt N = Raise x -> x = OverflowError.
Proof.
  intros HN. unfold int_sqrt.
  destruct (2 ^ 1024 <=? to_double (Z.abs N)); [now intros [= <-]|].
  destruct (Z.ltb_spec N 0); [lia | discriminate].
Qed.

(** Whatever the rounding does, the root of a number above one stays
    below that number. *)
Lemma int_sqrt_lt (N r : Z) :
  2 <= N -> int_sqrt N = Ok r -> 0 <= r < N.
Proof.
  intros HN. destruct (Z.lt_ge_cases N (2 ^ 52)) as [Hs | Hb].
  - rewrite int_sqrt_exact by lia. intros [= <-].
    split; [apply Z.sqrt_nonneg | apply Z.sqrt_lt_lin; lia].
  - unfold int_sqrt. rewrite Z.abs_eq by lia.
    destruct (2 ^ 1024 <=? to_double N); [discriminate|].
    destruct (Z.ltb_spec N 0); [lia|]. intros [= <-].
    pose proof (to_double_bounds N ltac:(lia)) as Hx.
    pose proof (double_sqrt_floor_square (to_double N) ltac:(lia)) as [Hr0 Hr].
    split; [assumption|]. nia.
Qed.

End RootFacts.

(** * Trial division *)

Module FactoringFacts.

Import Factoring.

(** The loop returns the first divisor in [i, i + count), paired with
    the quotient, and nothing when there is none. *)
Lemma trial_loop_spec (N : Z) :
  forall (count : nat) (i : Z),
    match trial_loop N i count with
    | Some (a, b) =>
        i <= a < i + Z.of_nat count /\ N mod a = 0 /\ b = N / a /\
        (forall k, i <= k < a -> N mod k <> 0)
    | None => forall k, i <= k < i + Z.of_nat count -> N mod k <> 0
    end.
Proof.
  induction count as [| count IH]; intros i.
  - cbn [trial_loop]. intros k Hk. lia.
  - cbn [trial_loop]. destruct (Z.eqb_spec (N mod i) 0) as [Hz | Hnz].
    + repeat split; try lia; try assumption.
    + specialize (IH (i + 1)).
      destruct (trial_loop N (i + 1) count) as [[a b] |].
      * destruct IH as (Ha & Hdiv & Hb & Hfirst).
        repeat split; try lia; try assumption.
        intros k Hk. destruct (Z.eq_dec k i) as [-> | Hne]; [assumption|].
        apply Hfirst. lia.
      * intros k Hk. destruct (Z.eq_dec k i) as [-> | Hne]; [assumption|].
        apply IH. lia.
Qed.

(** The least divisor above one of a product of two primes is the
    smaller prime. *)
Lemma no_small_divisor (p q k : Z) :
  Z.prime p -> Z.prime q -> p < q -> 2 <= k < p -> (p * q) mod k <> 0.
Proof.
  intros Hp Hq Hlt Hk Hmod.
  apply Z.mod_divide in Hmod; [|lia].
  assert (Hkq : (k | q)).
  { apply Z.gauss with (m := p); [assumption|].
    rewrite Z.gcd_comm. apply Z.coprime_prime_small; [assumption | lia]. }
  destruct Hq as [_ Hq]. apply (Hq k); [lia | assumption].
Qed.

(** Below [2^52] the loop runs up to the integer square root. *)
Lemma trial_division_exact (N : Z) :
  0 <= N < 2 ^ 52 ->
  trial_division N = Ok (trial_loop N 2 (Z.to_nat (Z.sqrt N + 1 - 2))).
Proof.
  intros HN. unfold trial_division.
  now rewrite RootFacts.int_sqrt_exact.
Qed.

Lemma trial_division_primes_ordered (p q : Z) :
  Z.prime p -> Z.prime q -> p < q -> p * q < 2 ^ 52 ->
  trial_division (p * q) = Ok (Some (p, q)).
Proof.
  intros Hp Hq Hlt Hsmall.
  pose proof (Z.prime_ge_2 _ Hp) as Hp2.
  rewrite trial_division_exact by nia.
  assert (Hsqrt : p <= Z.sqrt (p * q)).
  { apply Z.sqrt_le_square; nia. }
  pose proof (trial_loop_spec (p * q) (Z.to_nat (Z.sqrt (p * q) + 1 - 2)) 2) as Hspec.
  assert (Hpdiv : (p * q) mod p = 0).
  { rewrite Z.mul_comm. apply Z.mod_mul. lia. }
  destruct (trial_loop (p * q) 2 (Z.to_nat (Z.sqrt (p * q) + 1 - 2))) as [[a b] |].
  - destruct Hspec as (Ha & Hdiv & Hb & Hfirst).
    assert (Hap : a = p).
    { destruct (Z.lt_trichotomy a p) as [Hl | [He | Hg]]; [|assumption|].
      - exfalso. apply (no_small_divisor p q a); (assumption || lia).
      - exfalso. apply (Hfirst p); [lia | assumption]. }
    subst a. subst b. do 3 f_equal.
    rewrite Z.mul_comm. apply Z.div_mul. lia.
  - exfalso. apply (Hspec p); [lia | assumption].
Qed.

Lemma trial_division_primes (p q : Z) :
  Z.prime p -> Z.prime q -> p <> q -> p * q < 2 ^ 52 ->
  trial_division (p * q) = Ok (Some (Z.min p q, Z.max p q)).
Proof.
  intros Hp Hq Hne Hsmall.
  destruct (Z.lt_ge_cases p q) as [Hlt | Hge].
  - rewrite Z.min_l, Z.max_r by lia.
    now apply trial_division_primes_ordered.
  - rewrite Z.min_r, Z.max_l, Z.mul_comm by lia.
    apply trial_division_primes_ordered; (assumption || lia).
Qed.




End FactoringFacts.

(** * The attack *)

Module AttackFacts.

Import KeyPair Shor.

Lemma min_max_phi (p q : Z) :
  (Z.min p q - 1) * (Z.max p q - 1) = phi_n p q.
Proof.
  unfold phi_n. destruct (Z.lt_ge_cases p q).
  - now rewrite Z.min_l, Z.max_r by lia.
  - rewrite Z.min_r, Z.max_l by lia. ring.
Qed.

(** The attack on a product of two distinct primes reaches the
    computation of the inverse with the right totient. *)
Lemma attack_unfold (p q e d : Z) :
  Z.prime p -> Z.prime q -> p <> q -> p * q < 2 ^ 52 ->
  attack (p * q) e d =
  match pow e (-1) (phi_n p q) with
  | Ok found_d =>
      if found_d =? d
      then Ok (Compromised (Z.min p q) (Z.max p q) (phi_n p q) found_d)
      else Ok (Mismatch (Z.min p q) (Z.max p q) (phi_n p q) found_d)
  | Raise ValueError => Ok (InverseFailed (Z.min p q) (Z.max p q) (phi_n p q))
  | Raise x => Raise x
  end.
Proof.
  intros Hp Hq Hne Hsmall.
  pose proof (Z.prime_ge_2 _ Hp). pose proof (Z.prime_ge_2 _ Hq).
  unfold attack.
  rewrite FactoringFacts.trial_division_primes by assumption.
  cbn [bind option_map fst snd truthy].
  destruct (Z.eqb_spec (Z.min p q) 0); [lia|].
  destruct (Z.eqb_spec (Z.max p q) 0); [lia|].
  cbn [negb andb]. now rewrite min_max_phi.
Qed.




(** From [2^1024] on the attack stops at the conversion of the modulus
    to a double. *)
Lemma attack_overflow (N e d : Z) :
  2 ^ 1024 <= N -> attack N e d = Raise OverflowError.
Proof.
  intros HN. unfold attack, Factoring.trial_division.
  now rewrite RootFacts.int_sqrt_overflow.
Qed.





End AttackFacts.

(** * The CRT parameters *)

Module CrtFacts.

Import KeyPair Key Crt.

(** C4 as stated fails when one of the primes is two: then [dmp1] is
    [d mod 1 = 0], the residue modulo [p] is taken as [c ^ 0 = 1] even
    for an even [c], and the recombination differs from [c ^ d mod N].
    Here [p = 2], [q = 5], [e = d = 3] and [c = 2]: the direct path
    gives 8, the CRT path 3. *)
Lemma crt_differs_at_two :
  Valid 2 5 3 3 /\ 0 <= 2 < 2 * 5 /\
  private_numbers 2 5 3 3 =
    Ok {| priv_p := 2; priv_q := 5; priv_d := 3;
          dmp1 := 0; dmq1 := 3; iqmp := 1;
          public_numbers := {| pub_e := 3; pub_n := 10 |} |} /\
  crt_decrypt 2 {| priv_p := 2; priv_q := 5; priv_d := 3;
                   dmp1 := 0; dmq1 := 3; iqmp := 1;
                   public_numbers := {| pub_e := 3; pub_n := 10 |} |} = Ok 3 /\
  Shor.decrypted_message 2 3 (2 * 5) = Ok 8.
Proof.
  split; [|repeat split; try reflexivity; lia].
  split; try (apply KeyFacts.primeb_sound; reflexivity); try reflexivity; lia.
Qed.

(** C4, as amended.  For every valid key pair whose primes are both
    odd and every ciphertext [c] with [0 <= c < N], the parameters
    [dmp1 = d mod (p-1)], [dmq1 = d mod (q-1)] and
    [iqmp = q^(-1) mod p] are computed without error, and the CRT
    path built on them returns the same value as the direct path
    [pow(c, d, N)]. *)
Theorem crt_matches_direct (p q e d c : Z) :
  Valid p q e d -> 2 < p -> 2 < q -> 0 <= c < p * q ->
  exists k x,
    private_numbers p q e d = Ok k /\
    crt_decrypt c k = Ok x /\
    Shor.decrypted_message c d (p * q) = Ok x.
Proof.
  intros HV Hp2 Hq2 Hc.
  pose proof (p_prime _ _ _ _ HV) as Hp.
  pose proof (q_prime _ _ _ _ HV) as Hq.
  pose proof (d_nonneg _ _ _ _ HV) as Hd.
  pose proof (Arith.distinct_primes_coprime p q Hp Hq (distinct _ _ _ _ HV)) as Hpq.
  assert (Hqp : Z.gcd q p = 1) by now rewrite Z.gcd_comm.
  destruct (PyFacts.pow_inverse_ok q p ltac:(lia) Hqp) as (iq & Hiq & Hiqr & Hinv).
  assert (Hdp : 0 <= d mod (p - 1) < p - 1) by (apply Z.mod_pos_bound; lia).
  assert (Hdq : 0 <= d mod (q - 1) < q - 1) by (apply Z.mod_pos_bound; lia).
  unfold private_numbers, mod_.
  destruct (Z.eqb_spec (p - 1) 0); [lia|].
  destruct (Z.eqb_spec (q - 1) 0); [lia|].
  cbn [bind]. rewrite Hiq. cbn [bind].
  eexists. eexists. split; [reflexivity|].
  unfold crt_decrypt, Shor.decrypted_message, mod_.
  cbn [priv_p priv_q dmp1 dmq1 iqmp].
  rewrite !PyFacts.pow_nonneg by lia. cbn [bind].
  destruct (Z.eqb_spec p 0); [lia|].
  split; [reflexivity|]. f_equal.
  set (m1 := c ^ (d mod (p - 1)) mod p).
  set (m2 := c ^ (d mod (q - 1)) mod q).
  set (h := (iq * (m1 - m2)) mod p).
  assert (Hm2 : 0 <= m2 < q) by (apply Z.mod_pos_bound; lia).
  assert (Hh : 0 <= h < p) by (apply Z.mod_pos_bound; lia).
  assert (Hx : 0 <= m2 + h * q < p * q) by nia.
  rewrite <- (Z.mod_small (m2 + h * q) (p * q)) by assumption.
  symmetry. apply Arith.cong_mul_coprime; try lia.
  - (* modulo p *)
    rewrite <- Z.add_mod_idemp_r by lia.
    unfold h. rewrite Z.mul_mod_idemp_l by lia.
    replace (iq * (m1 - m2) * q) with (q * iq * (m1 - m2)) by ring.
    rewrite <- Z.mul_mod_idemp_l, Hinv, Z.mul_1_l by lia.
    rewrite Z.add_mod_idemp_r by lia.
    replace (m2 + (m1 - m2)) with m1 by ring.
    unfold m1. rewrite Z.mod_mod by lia.
    apply Arith.pow_exp_mod; try assumption.
    apply (KeyFacts.d_coprime_p_pred _ _ _ _ HV).
  - (* modulo q *)
    rewrite Z.mod_add by lia.
    unfold m2. rewrite Z.mod_mod by lia.
    apply Arith.pow_exp_mod; try assumption.
    apply (KeyFacts.d_coprime_q_pred _ _ _ _ HV).
Qed.

Lemma crt_matches_direct_witness :
  exists k x,
    private_numbers 11 17 3 107 = Ok k /\
    crt_decrypt 36 k = Ok x /\
    Shor.decrypted_message 36 107 (11 * 17) = Ok x.
Proof.
  apply (crt_matches_direct 11 17 3 107 36).
  - exact KeyFacts.demo_key_valid.
  - lia.
  - lia.
  - lia.
Defined.

End CrtFacts.

(** * Bytes and integers *)

Module BytesFacts.

Import Shor.

Lemma Z_of_byte_range (b : byte) : 0 <= Z_of_byte b < 256.
Proof.
  unfold Z_of_byte. pose proof (Byte.to_N_bounded b). lia.
Qed.

Lemma Z_of_byte_of_Z (z : Z) : Z_of_byte (byte_of_Z z) = z mod 256.
Proof.
  unfold Z_of_byte, byte_of_Z.
  pose proof (Z.mod_pos_bound z 256 ltac:(lia)) as Hr.
  destruct (Byte.of_N (Z.to_N (z mod 256))) as [b |] eqn:Hb.
  - apply Byte.to_of_N in Hb. rewrite Hb. lia.
  - apply Byte.of_N_None_iff in Hb. lia.
Qed.

Lemma from_bytes_snoc (l : list byte) (b : byte) :
  from_bytes (l ++ [b]) = from_bytes l * 256 + Z_of_byte b.
Proof.
  unfold from_bytes. now rewrite fold_left_app.
Qed.

Lemma from_bytes_range (bs : list byte) :
  0 <= from_bytes bs < 256 ^ Z.of_nat (length bs).
Proof.
  induction bs as [| b l IH] using rev_ind.
  - cbn. lia.
  - rewrite from_bytes_snoc, length_app, Nat2Z.inj_add. cbn [length].
    rewrite Z.pow_add_r by lia. change (256 ^ Z.of_nat 1) with 256.
    pose proof (Z_of_byte_range b). nia.
Qed.

Lemma fold_left_acc (l : list byte) :
  forall acc,
    fold_left (fun a b => a * 256 + Z_of_byte b) l acc =
    acc * 256 ^ Z.of_nat (length l) + from_bytes l.
Proof.
  unfold from_bytes.
  induction l as [| b l IH]; intros acc.
  - cbn. lia.
  - cbn [fold_left length]. rewrite IH, (IH (0 * 256 + Z_of_byte b)).
    rewrite Nat2Z.inj_succ, Z.pow_succ_r by lia. ring.
Qed.

Lemma from_bytes_cons (b : byte) (l : list byte) :
  from_bytes (b :: l) = Z_of_byte b * 256 ^ Z.of_nat (length l) + from_bytes l.
Proof.
  unfold from_bytes at 1. cbn [fold_left]. now rewrite fold_left_acc.
Qed.

Lemma length_be_bytes (len : nat) :
  forall n, length (be_bytes len n) = len.
Proof.
  induction len as [| len IH]; intros n; cbn [be_bytes].
  - reflexivity.
  - rewrite length_app, IH. cbn. lia.
Qed.

Lemma from_bytes_be_bytes (len : nat) :
  forall n, from_bytes (be_bytes len n) = n mod 256 ^ Z.of_nat len.
Proof.
  induction len as [| len IH]; intros n; cbn [be_bytes].
  - cbn. now rewrite Z.mod_1_r.
  - rewrite from_bytes_snoc, IH, Z_of_byte_of_Z.
    rewrite Nat2Z.inj_succ, Z.pow_succ_r by lia.
    rewrite Z.rem_mul_r by lia. ring.
Qed.

(** The byte count that the script passes to [to_bytes] is the least
    one that holds [n]. *)
Lemma byte_count_bounds (n : Z) :
  0 < n ->
  1 <= (bit_length n + 7) / 8 /\
  256 ^ ((bit_length n + 7) / 8 - 1) <= n < 256 ^ ((bit_length n + 7) / 8).
Proof.
  intros Hn. unfold bit_length.
  destruct (Z.eqb_spec n 0); [lia|]. rewrite Z.abs_eq by lia.
  pose proof (Z.log2_nonneg n) as Hl.
  pose proof (Z.log2_spec n Hn) as [Hlo Hhi].
  set (B := Z.log2 n) in *. set (L := (B + 1 + 7) / 8).
  assert (HL : 8 * L <= B + 8 < 8 * L + 8).
  { unfold L. pose proof (Z.div_mod (B + 1 + 7) 8 ltac:(lia)).
    pose proof (Z.mod_pos_bound (B + 1 + 7) 8 ltac:(lia)). lia. }
  change 256 with (2 ^ 8). rewrite <- !Z.pow_mul_r by lia.
  split; [lia|]. split.
  - apply Z.le_trans with (2 ^ B); [|assumption].
    apply Z.pow_le_mono_r; lia.
  - apply Z.lt_le_trans with (2 ^ Z.succ B); [assumption|].
    apply Z.pow_le_mono_r; lia.
Qed.

(** C10.  [decrypted_bytes] maps zero to the empty byte sequence, and
    every positive integer to its big-endian representation without a
    leading zero byte, which is the shortest byte sequence that
    decodes to it. *)
Theorem decrypted_bytes_minimal (n : Z) :
  0 <= n ->
  exists bs,
    decrypted_bytes n = Ok bs /\
    from_bytes bs = n /\
    (n = 0 -> bs = []) /\
    (0 < n -> exists b rest, bs = b :: rest /\ b <> x00) /\
    (forall bs', from_bytes bs' = n -> (length bs <= length bs')%nat).
Proof.
  intros Hn. destruct (Z.eq_dec n 0) as [-> | Hnz].
  - exists []. repeat split; try reflexivity; try lia.
    intros bs' _. cbn. lia.
  - assert (Hpos : 0 < n) by lia.
    destruct (byte_count_bounds n Hpos) as (HL & Hlo & Hhi).
    set (L := (bit_length n + 7) / 8) in *.
    exists (be_bytes (Z.to_nat L) n).
    assert (Hrun : decrypted_bytes n = Ok (be_bytes (Z.to_nat L) n)).
    { unfold decrypted_bytes, to_bytes. fold L.
      destruct (Z.ltb_spec L 0); [lia|].
      destruct (Z.ltb_spec n 0); [lia|].
      destruct (Z.leb_spec (256 ^ L) n); [lia | reflexivity]. }
    assert (Hval : from_bytes (be_bytes (Z.to_nat L) n) = n).
    { rewrite from_bytes_be_bytes, Z2Nat.id by lia.
      apply Z.mod_small. lia. }
    split; [assumption|]. split; [assumption|]. split; [lia|]. split.
    + intros _.
      pose proof (length_be_bytes (Z.to_nat L) n) as Hlen.
      destruct (be_bytes (Z.to_nat L) n) as [| b rest] eqn:Hbs.
      * cbn in Hlen. lia.
      * exists b, rest. split; [reflexivity|]. intros ->.
        rewrite from_bytes_cons in Hval.
        change (Z_of_byte x00) with 0 in Hval.
        pose proof (from_bytes_range rest) as Hrest.
        cbn [length] in Hlen.
        replace (Z.of_nat (length rest)) with (L - 1) in Hrest by lia.
        lia.
    + intros bs' Hbs'. rewrite length_be_bytes.
      pose proof (from_bytes_range bs') as Hr. rewrite Hbs' in Hr.
      assert (Hlt : 256 ^ (L - 1) < 256 ^ Z.of_nat (length bs')) by lia.
      apply Z.pow_lt_mono_r_iff in Hlt; lia.
Qed.

Lemma decrypted_bytes_minimal_witness :
  exists bs,
    decrypted_bytes 72 = Ok bs /\
    from_bytes bs = 72 /\
    (72 = 0 -> bs = []) /\
    (0 < 72 -> exists b rest, bs = b :: rest /\ b <> x00) /\
    (forall bs', from_bytes bs' = 72 -> (length bs <= length bs')%nat).
Proof.
  apply (decrypted_bytes_minimal 72). lia.
Defined.

End BytesFacts.

(** * The text step *)

Module TextFacts.

Import Key Shor.

(** C7 as stated fails on the script: for the text "Hi" (the bytes
    0x48 0x69, the number 18537) and [N = 187] the number does not fit,
    and the run does not stop there: it goes on with 72 by itself and
    produces the ciphertext 183. *)
Lemma text_run_hi_substitutes :
  from_bytes [x48; x69] = 18537 /\ 187 <= from_bytes [x48; x69] /\
  text_run [x48; x69] 3 107 187 =
    Ok {| warned := true; message_as_number := 72;
          encrypted_number := 183; decrypted_number := 72 |}.
Proof.
  repeat split; try reflexivity. cbv. discriminate.
Qed.

(** C7, as amended.  When the number encoded by the text is [>= N],
    the script warns and itself replaces the number by 72; it does not
    stop.  For a valid key whose modulus exceeds 72 the run then ends
    normally: 72 is encrypted to [72^e mod N] and the decryption of
    that recovers 72. *)
Theorem text_run_substitutes (p q e d : Z) (message_bytes : list byte) :
  Valid p q e d -> 72 < p * q -> p * q <= from_bytes message_bytes ->
  exists c,
    text_run message_bytes e d (p * q) =
      Ok {| warned := true; message_as_number := 72;
            encrypted_number := c; decrypted_number := 72 |} /\
    raw_ciphertext 72 e (p * q) = Ok c /\
    decrypted_message c d (p * q) = Ok 72.
Proof.
  intros HV HN Hover.
  pose proof (e_positive _ _ _ _ HV) as He.
  pose proof (d_nonneg _ _ _ _ HV) as Hd.
  exists (72 ^ e mod (p * q)).
  unfold text_run, raw_ciphertext, decrypted_message.
  destruct (Z.leb_spec (p * q) (from_bytes message_bytes)); [|lia].
  rewrite !PyFacts.pow_nonneg by lia. cbn [bind].
  rewrite !PyFacts.pow_nonneg by lia. cbn [bind].
  rewrite (KeyFacts.power_round_trip _ _ _ _ HV) by lia.
  repeat split.
Qed.

Lemma text_run_substitutes_witness :
  exists c,
    text_run [x48; x69] 3 107 (11 * 17) =
      Ok {| warned := true; message_as_number := 72;
            encrypted_number := c; decrypted_number := 72 |} /\
    raw_ciphertext 72 3 (11 * 17) = Ok c /\
    decrypted_message c 107 (11 * 17) = Ok 72.
Proof.
  apply (text_run_substitutes 11 17 3 107 [x48; x69]).
  - exact KeyFacts.demo_key_valid.
  - lia.
  - cbv. discriminate.
Defined.

End TextFacts.

(** * The scripts at their constants *)

Module DemoFacts.

Import KeyPair Shor.

(** C8.  With [p = 11], [q = 17], [e = 3] and [d = 107] the generation
    script derives [N = 187] and [phi_n = 160], its verification
    [(e * d) % phi_n] is one, and the key carries [dmp1 = 107 mod 10],
    [dmq1 = 107 mod 16] and [iqmp = 17^(-1) mod 11]; the attack on
    [(187, 3)] factors 187 into [(11, 17)] and recovers 107, equal to
    [d]. *)
Theorem demo_scenario :
  script 11 17 3 107 =
    Ok {| der_N := 187; der_phi_n := 160; der_coprime := true;
          der_verification := 1;
          der_key := {| priv_p := 11; priv_q := 17; priv_d := 107;
                        dmp1 := 107 mod 10; dmq1 := 107 mod 16; iqmp := 2;
                        public_numbers := {| pub_e := 3; pub_n := 187 |} |} |} /\
  (3 * 107) mod 160 = 1 /\
  pow 17 (-1) 11 = Ok 2 /\ (17 * 2) mod 11 = 1 /\
  Factoring.trial_division 187 = Ok (Some (11, 17)) /\
  pow 3 (-1) 160 = Ok 107 /\
  attack 187 3 107 = Ok (Compromised 11 17 160 107).
Proof.
  repeat split; vm_compute; reflexivity.
Qed.

(** C5, evaluated on the script.  With [e = 6] the value printed as
    "e is coprime to phi(N)" is [True], because 160 is not a multiple
    of 6, and the derivation goes through, although 6 and 160 share
    the factor 2 and 6 has no inverse modulo 160. *)
Theorem coprime_report_accepts_six :
  coprime_report 11 17 6 = Ok true /\
  Z.gcd 6 (phi_n 11 17) = 2 /\
  pow 6 (-1) (phi_n 11 17) = Raise ValueError /\
  exists r, script 11 17 6 107 = Ok r /\ der_coprime r = true.
Proof.
  repeat split; try (vm_compute; reflexivity).
  eexists. split; vm_compute; reflexivity.
Qed.

End DemoFacts.

(** * Further properties of the raw demonstration *)

Module RawFacts.

Import KeyPair Key Shor.

Section WithValidKey.

Variables p q e d : Z.
Hypothesis HV : Valid p q e d.

(** Without a bound on the message the two powers give its residue. *)
Lemma power_round_trip_mod (m : Z) :
  (m ^ e mod (p * q)) ^ d mod (p * q) = m mod (p * q).
Proof.
  pose proof (e_positive _ _ _ _ HV). pose proof (d_nonneg _ _ _ _ HV).
  rewrite Z.mod_pow_l, <- Z.pow_mul_r by lia.
  apply (KeyFacts.rsa_identity _ _ _ _ HV).
Qed.

(** The same with the exponents in the other order. *)
Lemma power_round_trip_swap (c : Z) :
  (c ^ d mod (p * q)) ^ e mod (p * q) = c mod (p * q).
Proof.
  pose proof (e_positive _ _ _ _ HV). pose proof (d_nonneg _ _ _ _ HV).
  rewrite Z.mod_pow_l, <- Z.pow_mul_r, (Z.mul_comm d e) by lia.
  apply (KeyFacts.rsa_identity _ _ _ _ HV).
Qed.

End WithValidKey.

(** X1.  With a valid key the raw demonstration decrypts to the residue
    of the message modulo [N], for any integer message; so its check
    "message recovered" succeeds exactly for the messages in [0, N). *)
Theorem raw_run_works_iff (p q e d original_message : Z) :
  Valid p q e d ->
  exists r,
    raw_run original_message e d (p * q) = Ok r /\
    raw_m r = original_message mod (p * q) /\
    (raw_works r = true <-> 0 <= original_message < p * q).
Proof.
  intros HV.
  pose proof (KeyFacts.modulus_ge_6 _ _ _ _ HV) as HN.
  pose proof (e_positive _ _ _ _ HV) as He.
  pose proof (d_nonneg _ _ _ _ HV) as Hd.
  unfold raw_run, raw_ciphertext, decrypted_message.
  rewrite PyFacts.pow_nonneg by lia. cbn [bind].
  rewrite PyFacts.pow_nonneg by lia. cbn [bind].
  rewrite (power_round_trip_mod _ _ _ _ HV).
  eexists. split; [reflexivity|]. cbn [raw_m raw_works].
  split; [reflexivity|].
  pose proof (Z.mod_pos_bound original_message (p * q) ltac:(lia)) as Hr.
  rewrite Z.eqb_eq. split.
  - intros Heq. lia.
  - intros Hm. apply Z.mod_small. assumption.
Qed.

Lemma raw_run_works_iff_witness :
  exists r,
    raw_run 200 3 107 (11 * 17) = Ok r /\
    raw_m r = 200 mod (11 * 17) /\
    (raw_works r = true <-> 0 <= 200 < 11 * 17).
Proof.
  apply (raw_run_works_iff 11 17 3 107 200).
  exact KeyFacts.demo_key_valid.
Defined.

(** X2.  The two operations are inverse in the other order too:
    encrypting the decryption of any [c] in [0, N) gives [c] back. *)
Theorem encrypt_after_decrypt (p q e d c : Z) :
  Valid p q e d -> 0 <= c < p * q ->
  exists m, decrypted_message c d (p * q) = Ok m /\
            0 <= m < p * q /\
            raw_ciphertext m e (p * q) = Ok c.
Proof.
  intros HV Hc.
  pose proof (e_positive _ _ _ _ HV) as He.
  pose proof (d_nonneg _ _ _ _ HV) as Hd.
  exists (c ^ d mod (p * q)). unfold raw_ciphertext, decrypted_message.
  rewrite !PyFacts.pow_nonneg by lia.
  split; [reflexivity|]. split; [apply Z.mod_pos_bound; lia|].
  f_equal. rewrite (power_round_trip_swap _ _ _ _ HV).
  apply Z.mod_small. assumption.
Qed.

Lemma encrypt_after_decrypt_witness :
  exists m, decrypted_message 36 107 (11 * 17) = Ok m /\
            0 <= m < 11 * 17 /\
            raw_ciphertext m 3 (11 * 17) = Ok 36.
Proof.
  apply (encrypt_after_decrypt 11 17 3 107 36).
  - exact KeyFacts.demo_key_valid.
  - lia.
Defined.

(** X3.  With a valid key no two messages in [0, N) have the same
    ciphertext. *)
Theorem encryption_injective (p q e d m1 m2 : Z) :
  Valid p q e d -> 0 <= m1 < p * q -> 0 <= m2 < p * q ->
  raw_ciphertext m1 e (p * q) = raw_ciphertext m2 e (p * q) ->
  m1 = m2.
Proof.
  intros HV H1 H2.
  pose proof (e_positive _ _ _ _ HV) as He.
  unfold raw_ciphertext. rewrite !PyFacts.pow_nonneg by lia.
  intros [= Heq].
  rewrite <- (KeyFacts.power_round_trip _ _ _ _ HV m1 H1).
  rewrite <- (KeyFacts.power_round_trip _ _ _ _ HV m2 H2).
  now rewrite Heq.
Qed.

Lemma encryption_injective_witness : 42 = 42.
Proof.
  apply (encryption_injective 11 17 3 107 42 42).
  - exact KeyFacts.demo_key_valid.
  - lia.
  - lia.
  - reflexivity.
Defined.

(** X4.  The raw encryption is multiplicative: the ciphertext of a
    product is the product of the ciphertexts, reduced modulo [N]. *)
Theorem encryption_multiplicative (a b e N : Z) :
  1 <= N -> 0 <= e ->
  exists ca cb,
    raw_ciphertext a e N = Ok ca /\
    raw_ciphertext b e N = Ok cb /\
    raw_ciphertext (a * b) e N = Ok ((ca * cb) mod N).
Proof.
  intros HN He. unfold raw_ciphertext.
  rewrite !PyFacts.pow_nonneg by lia.
  eexists. eexists. split; [reflexivity|]. split; [reflexivity|].
  f_equal. rewrite Z.pow_mul_l. apply Z.mul_mod. lia.
Qed.

Lemma encryption_multiplicative_witness :
  exists ca cb,
    raw_ciphertext 6 3 187 = Ok ca /\
    raw_ciphertext 7 3 187 = Ok cb /\
    raw_ciphertext (6 * 7) 3 187 = Ok ((ca * cb) mod 187).
Proof.
  apply (encryption_multiplicative 6 7 3 187); lia.
Defined.

(** X5.  The raw encryption leaves the messages 0 and 1 unchanged for
    every modulus above one and every positive exponent, and [N - 1] as
    well when the exponent is odd. *)
Theorem encryption_fixed_points (e N : Z) :
  2 <= N -> 0 < e ->
  raw_ciphertext 0 e N = Ok 0 /\
  raw_ciphertext 1 e N = Ok 1 /\
  (Z.odd e = true -> raw_ciphertext (N - 1) e N = Ok (N - 1)).
Proof.
  intros HN He. unfold raw_ciphertext.
  rewrite !PyFacts.pow_nonneg by lia. repeat split.
  - rewrite Z.pow_0_l by lia. now rewrite Z.mod_0_l by lia.
  - rewrite Z.pow_1_l by lia. now rewrite Z.mod_small by lia.
  - intros Hodd. f_equal.
    rewrite <- Z.mod_pow_l.
    replace ((N - 1) mod N) with ((- (1)) mod N).
    + rewrite Z.mod_pow_l, Z.pow_opp_odd by (now apply Z.odd_spec).
      rewrite Z.pow_1_l by lia.
      rewrite <- (Z.mod_add _ 1) by lia.
      replace (- (1) + 1 * N) with (N - 1) by ring.
      apply Z.mod_small. lia.
    + rewrite <- (Z.mod_add _ 1) by lia. f_equal. ring.
Qed.

Lemma encryption_fixed_points_witness :
  raw_ciphertext 0 3 187 = Ok 0 /\
  raw_ciphertext 1 3 187 = Ok 1 /\
  (Z.odd 3 = true -> raw_ciphertext (187 - 1) 3 187 = Ok (187 - 1)).
Proof.
  apply (encryption_fixed_points 3 187); lia.
Defined.

End RawFacts.

(** * Further properties of the factoring loop *)

Module TrialFacts.

Import Factoring.

(** What the call returns below [2^52], in terms of the loop's
    specification. *)
Lemma trial_division_cases (N : Z) :
  0 <= N < 2 ^ 52 ->
  match trial_division N with
  | Ok (Some (i, j)) =>
      2 <= i <= Z.sqrt N /\ N mod i = 0 /\ j = N / i /\
      (forall k, 2 <= k < i -> N mod k <> 0)
  | Ok None => forall k, 2 <= k <= Z.sqrt N -> N mod k <> 0
  | Raise _ => False
  end.
Proof.
  intros HN. rewrite FactoringFacts.trial_division_exact by assumption.
  pose proof (FactoringFacts.trial_loop_spec N (Z.to_nat (Z.sqrt N + 1 - 2)) 2) as Hspec.
  destruct (trial_loop N 2 (Z.to_nat (Z.sqrt N + 1 - 2))) as [[i j] |].
  - destruct Hspec as (Hi & Hdiv & Hj & Hfirst). repeat split; try lia; assumption.
  - intros k Hk. apply Hspec. lia.
Qed.

(** What a found pair satisfies for a modulus of any size: the bound of
    the loop, however it is rounded, stays below the modulus. *)
Lemma trial_division_found (N i j : Z) :
  0 <= N -> trial_division N = Ok (Some (i, j)) ->
  2 <= i < N /\ N mod i = 0 /\ j = N / i /\
  (forall k, 2 <= k < i -> N mod k <> 0).
Proof.
  intros HN. unfold trial_division.
  destruct (int_sqrt N) as [r | x] eqn:Hr; [|discriminate].
  cbn [bind]. intros [= Hloop].
  pose proof (FactoringFacts.trial_loop_spec N (Z.to_nat (r + 1 - 2)) 2) as Hspec.
  rewrite Hloop in Hspec. destruct Hspec as (Hi & Hdiv & Hj & Hfirst).
  assert (Hbound : r < N \/ r <= 1).
  { destruct (Z.lt_ge_cases N 2) as [Hsmall | Hbig].
    - right. rewrite RootFacts.int_sqrt_exact in Hr by lia.
      injection Hr as <-.
      assert (Hcase : N = 0 \/ N = 1) by lia.
      destruct Hcase as [-> | ->]; vm_compute; discriminate.
    - left. now apply (RootFacts.int_sqrt_lt N r). }
  repeat split; try assumption; lia.
Qed.

(** A number above one without a divisor up to its square root is
    prime. *)
Lemma prime_of_no_small_divisor (N : Z) :
  2 <= N -> (forall k, 2 <= k <= Z.sqrt N -> N mod k <> 0) -> Z.prime N.
Proof.
  intros HN Hnone. split; [lia|].
  intros n Hn [m Hm].
  pose proof (Z.sqrt_spec N ltac:(lia)) as [_ Hhi]. cbv zeta in Hhi.
  assert (Hm2 : 2 <= m) by nia.
  destruct (Z.le_gt_cases n (Z.sqrt N)) as [Hle | Hgt].
  - apply (Hnone n); [lia|]. rewrite Hm. apply Z.mod_mul. lia.
  - destruct (Z.le_gt_cases m (Z.sqrt N)) as [Hle' | Hgt'].
    + apply (Hnone m); [lia|]. rewrite Hm, Z.mul_comm. apply Z.mod_mul. lia.
    + pose proof (Z.sqrt_nonneg N).
      assert (Z.succ (Z.sqrt N) * Z.succ (Z.sqrt N) <= m * n)
        by (apply Z.mul_le_mono_nonneg; lia).
      lia.
Qed.

Lemma prime_has_no_small_divisor (N k : Z) :
  Z.prime N -> 2 <= k <= Z.sqrt N -> N mod k <> 0.
Proof.
  intros [HN Hp] Hk Hmod.
  assert (Hlt : Z.sqrt N < N) by (apply Z.sqrt_lt_lin; lia).
  apply (Hp k); [lia|]. apply Z.mod_divide; [lia | assumption].
Qed.

(** X6.  For a modulus of at least two and below [2^52], the loop ends
    without a factor exactly when the modulus is prime. *)
Theorem trial_division_none_iff_prime (N : Z) :
  2 <= N < 2 ^ 52 -> (trial_division N = Ok None <-> Z.prime N).
Proof.
  intros HN. pose proof (trial_division_cases N ltac:(lia)) as Hc. split.
  - intros Hnone. rewrite Hnone in Hc.
    now apply prime_of_no_small_divisor.
  - intros Hp. destruct (trial_division N) as [[[i j] |] | x].
    + destruct Hc as (Hi & Hdiv & _). exfalso.
      now apply (prime_has_no_small_divisor N i).
    + reflexivity.
    + contradiction.
Qed.

Lemma trial_division_none_iff_prime_witness :
  trial_division 13 = Ok None <-> Z.prime 13.
Proof.
  apply (trial_division_none_iff_prime 13). lia.
Defined.

(** X7.  Whatever factor pair the loop finds, its first component is a
    prime, the product of the pair is the modulus and the second
    component is at least the first. *)
Theorem trial_division_first_prime (N i j : Z) :
  0 <= N -> trial_division N = Ok (Some (i, j)) ->
  Z.prime i /\ i * j = N /\ i <= j.
Proof.
  intros HN Hfound.
  destruct (trial_division_found N i j HN Hfound) as (Hi & Hdiv & Hj & Hfirst).
  assert (Hprod : i * j = N).
  { subst j. symmetry. apply Z.div_exact; [lia | assumption]. }
  assert (Hij : i <= j).
  { destruct (Z.le_gt_cases i j) as [| Hlt]; [assumption | exfalso].
    apply (Hfirst j); [nia|].
    rewrite <- Hprod. apply Z.mod_mul. nia. }
  split; [|split; assumption].
  split; [lia|]. intros n Hn [m Hm].
  apply (Hfirst n); [lia|].
  rewrite <- Hprod, Hm.
  replace (m * n * j) with (m * j * n) by ring.
  apply Z.mod_mul. lia.
Qed.

Lemma trial_division_first_prime_witness :
  Z.prime 2 /\ 2 * 30 = 60 /\ 2 <= 30.
Proof.
  apply (trial_division_first_prime 60 2 30).
  - lia.
  - reflexivity.
Defined.

(** X8.  The upper bound of the loop is inclusive: the square of a
    prime, when it is below [2^52], is factored into that prime
    twice. *)
Theorem trial_division_prime_square (p : Z) :
  Z.prime p -> p * p < 2 ^ 52 -> trial_division (p * p) = Ok (Some (p, p)).
Proof.
  intros Hp Hsmall. pose proof (Z.prime_ge_2 _ Hp) as Hp2.
  pose proof (trial_division_cases (p * p) ltac:(nia)) as Hc.
  rewrite Z.sqrt_square in Hc by lia.
  assert (Hpdiv : (p * p) mod p = 0) by (apply Z.mod_mul; lia).
  destruct (trial_division (p * p)) as [[[i j] |] | x].
  - destruct Hc as (Hi & Hdiv & Hj & Hfirst).
    assert (Hip : i = p).
    { destruct (Z.eq_dec i p) as [| Hne]; [assumption|]. exfalso.
      apply Z.mod_divide in Hdiv; [|lia].
      assert (Hg : Z.gcd i p = 1).
      { rewrite Z.gcd_comm. apply Z.coprime_prime_small; [assumption | lia]. }
      apply Z.gauss in Hdiv; [|assumption].
      destruct Hp as [_ Hp]. apply (Hp i); [lia | assumption]. }
    subst i. subst j. do 3 f_equal. apply Z.div_mul. lia.
  - exfalso. apply (Hc p); [lia | assumption].
  - contradiction.
Qed.

Lemma trial_division_prime_square_witness :
  trial_division (11 * 11) = Ok (Some (11, 11)).
Proof.
  apply (trial_division_prime_square 11).
  - apply KeyFacts.primeb_sound. reflexivity.
  - lia.
Defined.

End TrialFacts.

(** * Further properties of the attack *)

Module VerdictFacts.

Import KeyPair Key Shor.

(** [pow] raises nothing but [ValueError]. *)
Lemma pow_raises_value_error (a b c : Z) (x : exn) :
  pow a b c = Raise x -> x = ValueError.
Proof.
  unfold pow.
  destruct (c =? 0); [now intros [= <-]|].
  destruct (Z.abs c =? 1); [discriminate|].
  destruct (b <? 0); [|discriminate].
  unfold long_invmod.
  destruct (invmod_loop (S (Z.to_nat (Z.abs c))) a (Z.abs c) 1 0) as [g y].
  destruct (g =? 1); cbn [bind]; [discriminate | now intros [= <-]].
Qed.

(** X9.  For a modulus [0 <= N < 2^52] the attack always ends with one
    of its four messages, whatever [e] and [d] are, and it ends with
    "failed to factor" exactly when [N] is below two or prime. *)
Theorem attack_factor_failed_iff (N e d : Z) :
  0 <= N < 2 ^ 52 ->
  exists v, attack N e d = Ok v /\
            (v = FactorFailed <-> N < 2 \/ Z.prime N).
Proof.
  intros HN. pose proof (TrialFacts.trial_division_cases N HN) as Hc.
  unfold attack.
  destruct (Factoring.trial_division N) as [[[i j] |] | x].
  - destruct Hc as (Hi & Hdiv & Hj & Hfirst).
    assert (Hprod : i * j = N).
    { subst j. symmetry. apply Z.div_exact; [lia | assumption]. }
    assert (Hsq : i * i <= N) by (apply Z.sqrt_le_square; lia).
    assert (Hij : i <= j) by nia.
    assert (Hnot : ~ (N < 2 \/ Z.prime N)).
    { intros [Hlt | [_ Hp]]; [nia|].
      apply (Hp i); [nia|]. exists j. lia. }
    cbn [bind option_map fst snd truthy].
    destruct (Z.eqb_spec i 0); [lia|]. destruct (Z.eqb_spec j 0); [lia|].
    cbn [negb andb].
    destruct (pow e (-1) ((i - 1) * (j - 1))) as [y | x] eqn:Hpow.
    + destruct (y =? d); eexists; (split; [reflexivity|]);
        split; (discriminate || contradiction).
    + apply pow_raises_value_error in Hpow. subst x.
      eexists. split; [reflexivity|]. split; (discriminate || contradiction).
  - cbn [bind option_map truthy andb]. eexists. split; [reflexivity|].
    split; [|reflexivity]. intros _.
    destruct (Z.lt_ge_cases N 2); [now left | right].
    now apply TrialFacts.prime_of_no_small_divisor.
  - contradiction.
Qed.

Lemma attack_factor_failed_iff_witness :
  exists v, attack 13 3 107 = Ok v /\
            (v = FactorFailed <-> 13 < 2 \/ Z.prime 13).
Proof.
  apply (attack_factor_failed_iff 13 3 107). lia.
Defined.

(** X10.  For a modulus below [2^52], whatever private exponent [d]
    the owner uses, the exponent that the attack recovers from [(N, e)]
    forms a valid key with [e] and decrypts every message encrypted
    under the public key. *)
Theorem recovered_exponent_decrypts (p q e d : Z) :
  Z.prime p -> Z.prime q -> p <> q -> p * q < 2 ^ 52 ->
  0 < e -> Z.gcd e (phi_n p q) = 1 ->
  exists v d',
    attack (p * q) e d = Ok v /\ recovered v = Some d' /\
    Valid p q e d' /\
    (forall m, 0 <= m < p * q ->
       exists c, raw_ciphertext m e (p * q) = Ok c /\
                 decrypted_message c d' (p * q) = Ok m).
Proof.
  intros Hp Hq Hne Hsmall He Hg.
  pose proof (Arith.phi_ge_2 p q Hp Hq Hne) as Hphi. fold (phi_n p q) in Hphi.
  destruct (PyFacts.pow_inverse_ok e (phi_n p q) Hphi Hg) as (x & Hx & Hr & Hinv).
  assert (HV : Valid p q e x) by (split; (assumption || lia)).
  pose proof (KeyFacts.modulus_ge_6 _ _ _ _ HV) as HN.
  rewrite AttackFacts.attack_unfold, Hx by assumption.
  assert (Hdec : forall m, 0 <= m < p * q ->
            exists c, raw_ciphertext m e (p * q) = Ok c /\
                      decrypted_message c x (p * q) = Ok m).
  { intros m Hm. exists (m ^ e mod (p * q)).
    unfold raw_ciphertext, decrypted_message.
    rewrite !PyFacts.pow_nonneg by lia. split; [reflexivity|].
    f_equal. now apply KeyFacts.power_round_trip. }
  destruct (x =? d); eexists; exists x; repeat split; try apply HV; assumption.
Qed.

Lemma recovered_exponent_decrypts_witness :
  exists v d',
    attack (11 * 17) 3 27 = Ok v /\ recovered v = Some d' /\
    Valid 11 17 3 d' /\
    (forall m, 0 <= m < 11 * 17 ->
       exists c, raw_ciphertext m 3 (11 * 17) = Ok c /\
                 decrypted_message c d' (11 * 17) = Ok m).
Proof.
  apply (recovered_exponent_decrypts 11 17 3 27).
  - apply KeyFacts.primeb_sound. reflexivity.
  - apply KeyFacts.primeb_sound. reflexivity.
  - lia.
  - lia.
  - lia.
  - reflexivity.
Defined.

(** X11.  For a modulus below [2^52]: when the owner's private
    exponent is valid but not below [phi_n], the attack reports a
    mismatch: what it recovers is that exponent reduced modulo
    [phi_n]. *)
Theorem attack_mismatch (p q e d : Z) :
  Valid p q e d -> p * q < 2 ^ 52 -> phi_n p q <= d ->
  attack (p * q) e d =
  Ok (Mismatch (Z.min p q) (Z.max p q) (phi_n p q) (d mod phi_n p q)).
Proof.
  intros HV Hsmall Hbig.
  pose proof (KeyFacts.phi_n_ge_2 _ _ _ _ HV) as Hphi.
  destruct (PyFacts.pow_inverse_ok e (phi_n p q) Hphi (e_coprime _ _ _ _ HV))
    as (x & Hx & Hr & Hinv).
  rewrite AttackFacts.attack_unfold, Hx by (apply HV || assumption).
  assert (Hxd : x = d mod phi_n p q).
  { apply (PyFacts.inverse_unique e (phi_n p q)); try lia.
    - apply Z.mod_pos_bound. lia.
    - rewrite Hinv. symmetry. apply Z.mod_small. lia.
    - rewrite Z.mul_mod_idemp_r by lia.
      rewrite (d_inverse _ _ _ _ HV). symmetry. apply Z.mod_small. lia. }
  destruct (Z.eqb_spec x d); [lia|]. now rewrite Hxd.
Qed.

Lemma attack_mismatch_witness :
  attack (11 * 17) 3 267 =
  Ok (Mismatch (Z.min 11 17) (Z.max 11 17) (phi_n 11 17) (267 mod phi_n 11 17)).
Proof.
  apply (attack_mismatch 11 17 3 267).
  - split; try (apply KeyFacts.primeb_sound; reflexivity); try reflexivity; lia.
  - lia.
  - vm_compute. discriminate.
Defined.

(** X22.  For a modulus [N >= 0] of any size the attack either ends
    with one of its four messages or stops with an [OverflowError] at
    [N ** 0.5], and it does the latter for every [N >= 2^1024]. *)
Theorem attack_ends_or_overflows (N e d : Z) :
  0 <= N ->
  ((exists v, attack N e d = Ok v) \/ attack N e d = Raise OverflowError) /\
  (2 ^ 1024 <= N -> attack N e d = Raise OverflowError).
Proof.
  intros HN. split; [|apply AttackFacts.attack_overflow].
  unfold attack, Factoring.trial_division.
  destruct (int_sqrt N) as [r | x] eqn:Hr.
  - left. cbn [bind].
    destruct (Factoring.trial_loop N 2 (Z.to_nat (r + 1 - 2))) as [[i j] |].
    + cbn [option_map fst snd].
      destruct (truthy (Some i) && truthy (Some j)); [|eexists; reflexivity].
      destruct (pow e (-1) ((i - 1) * (j - 1))) as [y | x] eqn:Hpow.
      * destruct (y =? d); eexists; reflexivity.
      * apply pow_raises_value_error in Hpow. subst x. eexists. reflexivity.
    + cbn [option_map truthy andb]. eexists. reflexivity.
  - right. apply RootFacts.int_sqrt_raises in Hr; [|assumption].
    now subst x.
Qed.

Lemma attack_ends_or_overflows_witness :
  ((exists v, attack 187 3 107 = Ok v) \/
   attack 187 3 107 = Raise OverflowError) /\
  (2 ^ 1024 <= 187 -> attack 187 3 107 = Raise OverflowError).
Proof.
  apply (attack_ends_or_overflows 187 3 107). lia.
Defined.

End VerdictFacts.

(** * Further properties of the key derivation *)

Module DerivationFacts.

Import KeyPair Key.

(** X12.  For a valid key the arguments of [RSAPrivateNumbers] are
    computed without error; [dmp1] and [dmq1] are reduced and are
    inverse to [e] modulo [p - 1] and [q - 1], [iqmp] is the inverse of
    [q] below [p], and the public numbers are [(e, p * q)]. *)
Theorem private_numbers_invariants (p q e d : Z) :
  Valid p q e d ->
  exists k,
    private_numbers p q e d = Ok k /\
    priv_p k = p /\ priv_q k = q /\ priv_d k = d /\
    pub_e (public_numbers k) = e /\ pub_n (public_numbers k) = p * q /\
    0 <= dmp1 k < p - 1 /\ (e * dmp1 k) mod (p - 1) = 1 mod (p - 1) /\
    0 <= dmq1 k < q - 1 /\ (e * dmq1 k) mod (q - 1) = 1 mod (q - 1) /\
    0 <= iqmp k < p /\ (q * iqmp k) mod p = 1.
Proof.
  intros HV.
  pose proof (KeyFacts.p_ge_2 _ _ _ _ HV) as Hp2.
  pose proof (KeyFacts.q_ge_2 _ _ _ _ HV) as Hq2.
  pose proof (Arith.distinct_primes_coprime p q
                (p_prime _ _ _ _ HV) (q_prime _ _ _ _ HV) (distinct _ _ _ _ HV)) as Hpq.
  assert (Hqp : Z.gcd q p = 1) by now rewrite Z.gcd_comm.
  destruct (PyFacts.pow_inverse_ok q p Hp2 Hqp) as (iq & Hiq & Hiqr & Hinv).
  unfold private_numbers, mod_.
  destruct (Z.eqb_spec (p - 1) 0); [lia|].
  destruct (Z.eqb_spec (q - 1) 0); [lia|].
  cbn [bind]. rewrite Hiq. cbn [bind].
  eexists. split; [reflexivity|].
  cbn [priv_p priv_q priv_d dmp1 dmq1 iqmp public_numbers pub_e pub_n].
  assert (Hcong : forall t, t <> 0 -> (t | e * d - 1) ->
            (e * (d mod t)) mod t = 1 mod t).
  { intros t Ht Hdiv. rewrite Z.mul_mod_idemp_r by assumption.
    apply Z.cong_iff_0. now apply Z.mod_divide. }
  repeat split; try reflexivity; try lia; try assumption.
  - apply Z.mod_pos_bound. lia.
  - apply Z.mod_pos_bound. lia.
  - apply Hcong; [assumption | apply (KeyFacts.p_pred_divides _ _ _ _ HV)].
  - apply Z.mod_pos_bound. lia.
  - apply Z.mod_pos_bound. lia.
  - apply Hcong; [assumption | apply (KeyFacts.q_pred_divides _ _ _ _ HV)].
Qed.

Lemma private_numbers_invariants_witness :
  exists k,
    private_numbers 11 17 3 107 = Ok k /\
    priv_p k = 11 /\ priv_q k = 17 /\ priv_d k = 107 /\
    pub_e (public_numbers k) = 3 /\ pub_n (public_numbers k) = 11 * 17 /\
    0 <= dmp1 k < 11 - 1 /\ (3 * dmp1 k) mod (11 - 1) = 1 mod (11 - 1) /\
    0 <= dmq1 k < 17 - 1 /\ (3 * dmq1 k) mod (17 - 1) = 1 mod (17 - 1) /\
    0 <= iqmp k < 11 /\ (17 * iqmp k) mod 11 = 1.
Proof.
  apply (private_numbers_invariants 11 17 3 107).
  exact KeyFacts.demo_key_valid.
Defined.

(** X13.  With twice the same number [p >= 2] for both primes the
    derivation stops with a [ValueError]: [q] has no inverse modulo
    [p]. *)
Theorem private_numbers_equal_primes (p e d : Z) :
  2 <= p -> private_numbers p p e d = Raise ValueError.
Proof.
  intros Hp. unfold private_numbers, mod_.
  destruct (Z.eqb_spec (p - 1) 0); [lia|]. cbn [bind].
  rewrite PyFacts.pow_inverse_fails; [reflexivity | assumption |].
  rewrite Z.gcd_diag, Z.abs_eq; lia.
Qed.

Lemma private_numbers_equal_primes_witness :
  private_numbers 11 11 3 107 = Raise ValueError.
Proof.
  apply (private_numbers_equal_primes 11 3 107). lia.
Defined.

(** X14.  For an exponent above one, the value that the script prints
    as "e is coprime to phi(N)" is [True] whenever [e] is coprime with
    [phi_n]; so a printed [False] always means that they are not
    coprime. *)
Theorem coprime_report_complete (p q e : Z) :
  1 < e ->
  (Z.gcd e (phi_n p q) = 1 -> coprime_report p q e = Ok true) /\
  (coprime_report p q e = Ok false -> Z.gcd e (phi_n p q) <> 1).
Proof.
  intros He.
  assert (Hdiv : phi_n p q mod e = 0 -> Z.gcd e (phi_n p q) <> 1).
  { intros Hmod Hg. apply Z.mod_divide in Hmod; [|lia].
    assert (Hd : (e | 1)).
    { rewrite <- Hg. apply Z.gcd_greatest; [apply Z.divide_refl | assumption]. }
    apply Z.divide_1_r_nonneg in Hd; lia. }
  unfold coprime_report, mod_.
  destruct (Z.eqb_spec e 0); [lia|]. cbn [bind].
  destruct (Z.eqb_spec (phi_n p q mod e) 0) as [Hz | Hnz]; cbn [negb]; split.
  - intros Hg. exfalso. now apply Hdiv.
  - intros _. now apply Hdiv.
  - reflexivity.
  - discriminate.
Qed.

Lemma coprime_report_complete_witness :
  (Z.gcd 3 (phi_n 11 17) = 1 -> coprime_report 11 17 3 = Ok true) /\
  (coprime_report 11 17 3 = Ok false -> Z.gcd 3 (phi_n 11 17) <> 1).
Proof.
  apply (coprime_report_complete 11 17 3). lia.
Defined.

End DerivationFacts.

(** * Bytes to number and back *)

Module RoundTripFacts.

Import Shor.

Lemma byte_of_Z_of_byte (b : byte) : byte_of_Z (Z_of_byte b) = b.
Proof.
  unfold byte_of_Z, Z_of_byte.
  pose proof (Byte.to_N_bounded b).
  rewrite Z.mod_small, N2Z.id by lia.
  now rewrite Byte.of_to_N.
Qed.

Lemma Z_of_byte_inj (a b : byte) : Z_of_byte a = Z_of_byte b -> a = b.
Proof.
  intros H. rewrite <- (byte_of_Z_of_byte a), <- (byte_of_Z_of_byte b).
  now rewrite H.
Qed.

Lemma Z_of_byte_small (v : Z) : 0 <= v < 256 -> Z_of_byte (byte_of_Z v) = v.
Proof.
  intros Hv. rewrite BytesFacts.Z_of_byte_of_Z. now apply Z.mod_small.
Qed.

Lemma byte_of_Z_mod (z : Z) : byte_of_Z (z mod 256) = byte_of_Z z.
Proof.
  unfold byte_of_Z. now rewrite Z.mod_mod by lia.
Qed.

(** Splitting a number into as many bytes as a sequence has gives the
    sequence back. *)
Lemma be_bytes_from_bytes (bs : list byte) :
  be_bytes (length bs) (from_bytes bs) = bs.
Proof.
  induction bs as [| b l IH] using rev_ind.
  - reflexivity.
  - rewrite length_app, Nat.add_1_r. cbn [length be_bytes].
    rewrite BytesFacts.from_bytes_snoc.
    pose proof (BytesFacts.Z_of_byte_range b) as Hb.
    replace ((from_bytes l * 256 + Z_of_byte b) / 256) with (from_bytes l)
      by (rewrite Z.div_add_l, Z.div_small by lia; lia).
    rewrite IH. f_equal. f_equal.
    rewrite <- byte_of_Z_mod, Z.add_comm, Z.mod_add, Z.mod_small by lia.
    apply byte_of_Z_of_byte.
Qed.

Lemma from_bytes_strip (bs : list byte) :
  from_bytes (strip_zeros bs) = from_bytes bs.
Proof.
  induction bs as [| b l IH]; [reflexivity|].
  cbn [strip_zeros]. destruct (Z.eqb_spec (Z_of_byte b) 0) as [Hz | Hnz].
  - rewrite IH, (BytesFacts.from_bytes_cons b l), Hz. lia.
  - reflexivity.
Qed.

Lemma strip_zeros_head (bs : list byte) :
  match strip_zeros bs with
  | b :: _ => Z_of_byte b <> 0
  | [] => True
  end.
Proof.
  induction bs as [| b l IH]; [exact I|].
  cbn [strip_zeros]. destruct (Z.eqb_spec (Z_of_byte b) 0); assumption.
Qed.

(** A sequence that starts with a non-zero byte has exactly the length
    that the script computes from the bit length of its number. *)
Lemma canonical_length (b : byte) (rest : list byte) :
  Z_of_byte b <> 0 ->
  0 < from_bytes (b :: rest) /\
  (bit_length (from_bytes (b :: rest)) + 7) / 8 = Z.of_nat (length (b :: rest)).
Proof.
  intros Hb.
  pose proof (BytesFacts.Z_of_byte_range b) as Hr.
  pose proof (BytesFacts.from_bytes_range rest) as Hrest.
  pose proof (BytesFacts.from_bytes_range (b :: rest)) as Hall.
  assert (Hlow : 256 ^ Z.of_nat (length rest) <= from_bytes (b :: rest)).
  { rewrite BytesFacts.from_bytes_cons. nia. }
  assert (Hpos : 0 < from_bytes (b :: rest)).
  { pose proof (Z.pow_pos_nonneg 256 (Z.of_nat (length rest)) ltac:(lia) ltac:(lia)).
    lia. }
  split; [assumption|].
  destruct (BytesFacts.byte_count_bounds _ Hpos) as (HL & Hlo & Hhi).
  set (L := (bit_length (from_bytes (b :: rest)) + 7) / 8) in *.
  cbn [length] in *. rewrite Nat2Z.inj_succ in *.
  assert (H1 : 256 ^ Z.of_nat (length rest) < 256 ^ L) by lia.
  assert (H2 : 256 ^ (L - 1) < 256 ^ Z.succ (Z.of_nat (length rest))) by lia.
  apply Z.pow_lt_mono_r_iff in H1; [|lia|lia].
  apply Z.pow_lt_mono_r_iff in H2; lia.
Qed.

Lemma decrypted_bytes_strip (bs : list byte) :
  decrypted_bytes (from_bytes bs) = Ok (strip_zeros bs).
Proof.
  rewrite <- from_bytes_strip.
  pose proof (strip_zeros_head bs) as Hhead.
  destruct (strip_zeros bs) as [| b rest] eqn:Hs.
  - reflexivity.
  - destruct (canonical_length b rest Hhead) as [Hpos HL].
    pose proof (BytesFacts.from_bytes_range (b :: rest)) as Hr.
    unfold decrypted_bytes, to_bytes. rewrite HL.
    destruct (Z.ltb_spec (Z.of_nat (length (b :: rest))) 0); [lia|].
    destruct (Z.ltb_spec (from_bytes (b :: rest)) 0); [lia|].
    destruct (Z.leb_spec (256 ^ Z.of_nat (length (b :: rest))) (from_bytes (b :: rest)));
      [lia|].
    rewrite Nat2Z.id. f_equal. apply be_bytes_from_bytes.
Qed.

(** X15.  Converting a byte sequence to a number (line 89) and that
    number back to bytes (line 111) gives the sequence without its
    leading zero bytes, so a sequence that starts with a non-zero byte
    comes back unchanged; and two sequences have the same number
    exactly when they differ by leading zero bytes only. *)
Theorem bytes_round_trip (bs bs' : list byte) :
  decrypted_bytes (from_bytes bs) = Ok (strip_zeros bs) /\
  (forall b rest, bs = b :: rest -> Z_of_byte b <> 0 ->
     decrypted_bytes (from_bytes bs) = Ok bs) /\
  (from_bytes bs = from_bytes bs' <-> strip_zeros bs = strip_zeros bs').
Proof.
  split; [apply decrypted_bytes_strip|]. split.
  - intros b rest -> Hb. rewrite decrypted_bytes_strip. cbn [strip_zeros].
    destruct (Z.eqb_spec (Z_of_byte b) 0); [contradiction | reflexivity].
  - split.
    + intros Heq.
      pose proof (decrypted_bytes_strip bs) as H1.
      pose proof (decrypted_bytes_strip bs') as H2.
      rewrite Heq, H2 in H1. now injection H1.
    + intros Heq.
      rewrite <- (from_bytes_strip bs), <- (from_bytes_strip bs').
      now rewrite Heq.
Qed.

End RoundTripFacts.

(** * UTF-8 *)

Module Utf8Facts.

Ltac divmod := Z.to_euclidean_division_equations; lia.

(** Settles the outermost test of a conditional by arithmetic. *)
Ltac decide_if :=
  match goal with
  | |- context [if ?c then _ else _] =>
      first [ replace c with true by (symmetry; divmod)
            | replace c with false by (symmetry; divmod) ];
      cbv iota
  end.

Lemma str_eqb_eq (s t : str) : str_eqb s t = true <-> s = t.
Proof.
  revert t. induction s as [| c s IH]; intros [| c' t]; cbn [str_eqb];
    try (split; (discriminate || reflexivity)).
  rewrite andb_true_iff, Z.eqb_eq, IH. split.
  - now intros [-> ->].
  - now intros [= -> ->].
Qed.

(** Decoding what one code point encodes to gives it back and goes on
    with the rest. *)
Lemma decode_code_point_cases (cp : Z) (rest : list byte) :
  match encode_code_point cp with
  | Ok bs => decode (bs ++ rest) = bind (decode rest) (fun r => Ok (cp :: r))
  | Raise _ => True
  end.
Proof.
  unfold encode_code_point, is_surrogate.
  destruct (Z.ltb_spec cp 0); [exact I|].
  destruct (Z.ltb_spec cp 0x80).
  { cbn [app decode].
    rewrite !RoundTripFacts.Z_of_byte_small by divmod.
    repeat decide_if. reflexivity. }
  destruct (Z.ltb_spec cp 0x800).
  { cbn [app decode]. unfold continuation.
    rewrite !RoundTripFacts.Z_of_byte_small by divmod.
    repeat decide_if.
    destruct (decode rest); cbn [bind]; [|reflexivity].
    do 2 f_equal. divmod. }
  destruct (Z.ltb_spec cp 0x10000).
  { destruct ((0xD800 <=? cp) && (cp <=? 0xDFFF)) eqn:Hs; [exact I|].
    cbn [app decode]. unfold continuation, is_surrogate.
    rewrite !RoundTripFacts.Z_of_byte_small by divmod.
    repeat decide_if.
    destruct (decode rest); cbn [bind]; [|reflexivity].
    do 2 f_equal. divmod. }
  destruct (Z.ltb_spec cp 0x110000); [|exact I].
  cbn [app decode]. unfold continuation.
  rewrite !RoundTripFacts.Z_of_byte_small by divmod.
  repeat decide_if.
  destruct (decode rest); cbn [bind]; [|reflexivity].
  do 2 f_equal. divmod.
Qed.

Lemma decode_code_point (cp : Z) (bs rest : list byte) :
  encode_code_point cp = Ok bs ->
  decode (bs ++ rest) = bind (decode rest) (fun r => Ok (cp :: r)).
Proof.
  intros Henc. pose proof (decode_code_point_cases cp rest) as Hc.
  now rewrite Henc in Hc.
Qed.

Lemma decode_encode (s : str) :
  forall bs, encode s = Ok bs -> decode bs = Ok s.
Proof.
  induction s as [| cp s IH]; intros bs; cbn [encode].
  - now intros [= <-].
  - destruct (encode_code_point cp) as [b1 |] eqn:H1; cbn [bind]; [|discriminate].
    destruct (encode s) as [b2 |] eqn:H2; cbn [bind]; [|discriminate].
    intros [= <-]. rewrite (decode_code_point cp b1 b2 H1), (IH b2 eq_refl).
    reflexivity.
Qed.

(** The NUL character is the only one whose encoding starts with a
    zero byte, and its encoding is that byte alone. *)
Lemma encode_code_point_head_cases (cp : Z) :
  match encode_code_point cp with
  | Ok bs =>
      exists b t, bs = b :: t /\
                  (cp = 0 -> Z_of_byte b = 0 /\ t = []) /\
                  (cp <> 0 -> Z_of_byte b <> 0)
  | Raise _ => True
  end.
Proof.
  unfold encode_code_point.
  destruct (Z.ltb_spec cp 0); [exact I|].
  destruct (Z.ltb_spec cp 0x80).
  { eexists. eexists. split; [reflexivity|].
    rewrite RoundTripFacts.Z_of_byte_small by lia. split; intros; auto. }
  destruct (Z.ltb_spec cp 0x800).
  { eexists. eexists. split; [reflexivity|].
    rewrite RoundTripFacts.Z_of_byte_small by divmod. split; intros; divmod. }
  destruct (Z.ltb_spec cp 0x10000).
  { destruct (is_surrogate cp); [exact I|].
    eexists. eexists. split; [reflexivity|].
    rewrite RoundTripFacts.Z_of_byte_small by divmod. split; intros; divmod. }
  destruct (Z.ltb_spec cp 0x110000); [|exact I].
  eexists. eexists. split; [reflexivity|].
  rewrite RoundTripFacts.Z_of_byte_small by divmod. split; intros; divmod.
Qed.

Lemma encode_code_point_head (cp : Z) (bs : list byte) :
  encode_code_point cp = Ok bs ->
  exists b t, bs = b :: t /\
              (cp = 0 -> Z_of_byte b = 0 /\ t = []) /\
              (cp <> 0 -> Z_of_byte b <> 0).
Proof.
  intros Henc. pose proof (encode_code_point_head_cases cp) as Hc.
  now rewrite Henc in Hc.
Qed.

Lemma encode_strip (s : str) :
  forall bs, encode s = Ok bs -> encode (strip_nuls s) = Ok (strip_zeros bs).
Proof.
  induction s as [| cp s IH]; intros bs; cbn [encode strip_nuls].
  - now intros [= <-].
  - destruct (encode_code_point cp) as [b1 |] eqn:H1; cbn [bind]; [|discriminate].
    destruct (encode s) as [b2 |] eqn:H2; cbn [bind]; [|discriminate].
    intros [= <-].
    destruct (encode_code_point_head cp b1 H1) as (b & t & -> & Hzero & Hnz).
    destruct (Z.eqb_spec cp 0) as [Hcp | Hcp].
    + destruct (Hzero Hcp) as [Hb ->]. cbn [app strip_zeros].
      rewrite Hb. cbn [Z.eqb]. now apply IH.
    + cbn [app strip_zeros encode].
      destruct (Z.eqb_spec (Z_of_byte b) 0) as [Hb | Hb]; [now apply Hnz in Hb|].
      now rewrite H1, H2.
Qed.

End Utf8Facts.

(** * The text demonstration as a whole *)

Module TextScriptFacts.

Import Key Shor Utf8Facts.


(** The run of lines 89-107 when the number fits a valid key. *)
Lemma text_run_fits (p q e d : Z) (message_bytes : list byte) :
  Valid p q e d -> from_bytes message_bytes < p * q ->
  text_run message_bytes e d (p * q) =
  Ok {| warned := false;
        message_as_number := from_bytes message_bytes;
        encrypted_number := from_bytes message_bytes ^ e mod (p * q);
        decrypted_number := from_bytes message_bytes |}.
Proof.
  intros HV Hfit.
  pose proof (e_positive _ _ _ _ HV) as He.
  pose proof (d_nonneg _ _ _ _ HV) as Hd.
  pose proof (BytesFacts.from_bytes_range message_bytes) as Hr.
  unfold text_run.
  destruct (Z.leb_spec (p * q) (from_bytes message_bytes)); [lia|].
  rewrite PyFacts.pow_nonneg by lia. cbn [bind].
  rewrite PyFacts.pow_nonneg by lia. cbn [bind].
  now rewrite (KeyFacts.power_round_trip _ _ _ _ HV) by lia.
Qed.

(** X16.  With a valid key and a text whose number fits the modulus,
    the script runs without warning, decrypts to the number it
    encrypted, and decodes the text without its leading NUL characters:
    it reports success exactly when the text does not start with NUL,
    and a differing text otherwise. *)
Theorem text_script_round_trip (p q e d : Z) (text_message : str)
        (message_bytes : list byte) :
  Valid p q e d ->
  encode text_message = Ok message_bytes ->
  from_bytes message_bytes < p * q ->
  exists c out,
    text_script text_message e d (p * q) =
      Ok ({| warned := false;
             message_as_number := from_bytes message_bytes;
             encrypted_number := c;
             decrypted_number := from_bytes message_bytes |}, out) /\
    (strip_nuls text_message = text_message ->
     out = TextRecovered text_message) /\
    (strip_nuls text_message <> text_message ->
     out = TextDiffers (strip_nuls text_message)).
Proof.
  intros HV Henc Hfit. unfold text_script.
  rewrite Henc. cbn [bind].
  rewrite (text_run_fits p q e d message_bytes HV Hfit).
  cbn [bind warned decrypted_number]. unfold text_outcome.
  rewrite RoundTripFacts.decrypted_bytes_strip. cbn [bind].
  rewrite (decode_encode _ _ (encode_strip _ _ Henc)).
  destruct (str_eqb (strip_nuls text_message) text_message) eqn:Heq;
    cbn [bind]; eexists; eexists; (split; [reflexivity|]).
  - apply str_eqb_eq in Heq. split; [intros _; now rewrite Heq | contradiction].
  - split; [|reflexivity]. intros Hsame.
    apply str_eqb_eq in Hsame. congruence.
Qed.

Lemma text_script_round_trip_witness :
  exists c out,
    text_script [65] 3 107 (11 * 17) =
      Ok ({| warned := false;
             message_as_number := from_bytes [x41];
             encrypted_number := c;
             decrypted_number := from_bytes [x41] |}, out) /\
    (strip_nuls [65] = [65] -> out = TextRecovered [65]) /\
    (strip_nuls [65] <> [65] -> out = TextDiffers (strip_nuls [65])).
Proof.
  apply (text_script_round_trip 11 17 3 107 [65] [x41]).
  - exact KeyFacts.demo_key_valid.
  - reflexivity.
  - reflexivity.
Defined.

(** X17.  With a valid key whose modulus exceeds 72, any text whose
    number does not fit makes the script warn, go on with 'H' in place
    of the text and report success for that 'H'. *)
Theorem text_script_overflow (p q e d : Z) (text_message : str)
        (message_bytes : list byte) :
  Valid p q e d -> 72 < p * q ->
  encode text_message = Ok message_bytes ->
  p * q <= from_bytes message_bytes ->
  exists c,
    text_script text_message e d (p * q) =
      Ok ({| warned := true; message_as_number := 72;
             encrypted_number := c; decrypted_number := 72 |},
          TextRecovered [72]).
Proof.
  intros HV HN Henc Hover.
  pose proof (e_positive _ _ _ _ HV) as He.
  pose proof (d_nonneg _ _ _ _ HV) as Hd.
  unfold text_script. rewrite Henc. cbn [bind]. unfold text_run.
  destruct (Z.leb_spec (p * q) (from_bytes message_bytes)); [|lia].
  rewrite PyFacts.pow_nonneg by lia. cbn [bind].
  rewrite PyFacts.pow_nonneg by lia. cbn [bind].
  rewrite (KeyFacts.power_round_trip _ _ _ _ HV) by lia.
  cbn [warned decrypted_number].
  change (text_outcome 72 [72]) with (Ok (TextRecovered [72])).
  cbn [bind]. eexists. reflexivity.
Qed.

Lemma text_script_overflow_witness :
  exists c,
    text_script [72; 105] 3 107 (11 * 17) =
      Ok ({| warned := true; message_as_number := 72;
             encrypted_number := c; decrypted_number := 72 |},
          TextRecovered [72]).
Proof.
  apply (text_script_overflow 11 17 3 107 [72; 105] [x48; x69]).
  - exact KeyFacts.demo_key_valid.
  - lia.
  - reflexivity.
  - vm_compute. discriminate.
Defined.

(** X18.  A decrypted number that is one byte long is shown as that
    character: below 128 it is decoded and compared with the text; from
    128 on the byte is not valid UTF-8 on its own and the handler shows
    [chr] of the number instead. *)
Theorem text_outcome_single_byte (n : Z) (text_message : str) :
  0 < n < 256 ->
  (n < 128 ->
   text_outcome n text_message =
   Ok (if str_eqb [n] text_message
       then TextRecovered [n] else TextDiffers [n])) /\
  (128 <= n -> text_outcome n text_message = Ok (SingleCharacter [n])).
Proof.
  intros Hn.
  assert (Hbytes : decrypted_bytes n = Ok [byte_of_Z n]).
  { pose proof (RoundTripFacts.decrypted_bytes_strip [byte_of_Z n]) as H.
    cbn [strip_zeros] in H. unfold from_bytes in H. cbn [fold_left] in H.
    rewrite RoundTripFacts.Z_of_byte_small in H by lia.
    destruct (Z.eqb_spec n 0); [lia|].
    now replace (0 * 256 + n) with n in H by lia. }
  unfold text_outcome. rewrite Hbytes. cbn [bind decode].
  rewrite !RoundTripFacts.Z_of_byte_small by lia.
  split; intros Hcase.
  - repeat decide_if. cbn [bind].
    destruct (str_eqb [n] text_message); reflexivity.
  - unfold chr.
    destruct (Z.ltb_spec n 128); [lia|].
    destruct (Z.ltb_spec n 194); [cbn [bind]; repeat decide_if; reflexivity|].
    destruct (Z.ltb_spec n 224); [cbn [bind]; repeat decide_if; reflexivity|].
    destruct (Z.ltb_spec n 240); [cbn [bind]; repeat decide_if; reflexivity|].
    destruct (Z.ltb_spec n 245); cbn [bind]; repeat decide_if; reflexivity.
Qed.

Lemma text_outcome_single_byte_witness :
  (200 < 128 ->
   text_outcome 200 [72] =
   Ok (if str_eqb [200] [72]
       then TextRecovered [200] else TextDiffers [200])) /\
  (128 <= 200 -> text_outcome 200 [72] = Ok (SingleCharacter [200])).
Proof.
  apply (text_outcome_single_byte 200 [72]). lia.
Defined.



(** X20.  With a valid key whose modulus is at most 72, the substitute
    that the script uses on overflow does not fit either: the run
    decrypts to the residue of 72, which is not 72. *)
Theorem text_run_small_modulus (p q e d : Z) (message_bytes : list byte) :
  Valid p q e d -> p * q <= 72 -> p * q <= from_bytes message_bytes ->
  exists c,
    text_run message_bytes e d (p * q) =
      Ok {| warned := true; message_as_number := 72;
            encrypted_number := c;
            decrypted_number := 72 mod (p * q) |} /\
    72 mod (p * q) <> 72.
Proof.
  intros HV HN Hover.
  pose proof (KeyFacts.modulus_ge_6 _ _ _ _ HV) as HN6.
  pose proof (e_positive _ _ _ _ HV) as He.
  pose proof (d_nonneg _ _ _ _ HV) as Hd.
  unfold text_run.
  destruct (Z.leb_spec (p * q) (from_bytes message_bytes)); [|lia].
  rewrite PyFacts.pow_nonneg by lia. cbn [bind].
  rewrite PyFacts.pow_nonneg by lia. cbn [bind].
  rewrite (RawFacts.power_round_trip_mod _ _ _ _ HV).
  eexists. split; [reflexivity|].
  pose proof (Z.mod_pos_bound 72 (p * q) ltac:(lia)). lia.
Qed.

Lemma text_run_small_modulus_witness :
  exists c,
    text_run [x48] 5 5 (5 * 7) =
      Ok {| warned := true; message_as_number := 72;
            encrypted_number := c;
            decrypted_number := 72 mod (5 * 7) |} /\
    72 mod (5 * 7) <> 72.
Proof.
  apply (text_run_small_modulus 5 7 5 5 [x48]).
  - split; try (apply KeyFacts.primeb_sound; reflexivity); try reflexivity; lia.
  - lia.
  - vm_compute. discriminate.
Defined.

End TextScriptFacts.

(** * The analysis of a public key read from a file *)

Module ExtractFacts.

(** X21.  For a modulus [>= 0] the script exposes no factors exactly
    when the modulus is below two, prime, or at least 1000: above that
    size it does not even try, and below it only a prime survives. *)
Theorem exposed_factors_none_iff (modulus_n : Z) :
  0 <= modulus_n ->
  (Extract.exposed_factors modulus_n = Ok None <->
   modulus_n < 2 \/ Z.prime modulus_n \/ 1000 <= modulus_n).
Proof.
  intros HN. unfold Extract.exposed_factors.
  destruct (Z.ltb_spec modulus_n 1000) as [Hlt | Hge].
  - pose proof (TrialFacts.trial_division_cases modulus_n ltac:(lia)) as Hc.
    destruct (Factoring.trial_division modulus_n) as [[[i j] |] | x].
    + destruct Hc as (Hi & Hdiv & Hj & _).
      assert (Hsq : i * i <= modulus_n) by (apply Z.sqrt_le_square; lia).
      split; [discriminate|].
      intros [Hsmall | [[_ Hp] | Hbig]]; try nia. exfalso.
      apply (Hp i); [nia|]. apply Z.mod_divide; [lia | assumption].
    + split; [|reflexivity]. intros _.
      destruct (Z.lt_ge_cases modulus_n 2); [now left | right; left].
      now apply TrialFacts.prime_of_no_small_divisor.
    + contradiction.
  - split; [intros _; right; right; assumption | reflexivity].
Qed.

Lemma exposed_factors_none_iff_witness :
  Extract.exposed_factors 1003 = Ok None <->
  1003 < 2 \/ Z.prime 1003 \/ 1000 <= 1003.
Proof.
  apply (exposed_factors_none_iff 1003). lia.
Defined.

End ExtractFacts.
